(** * Conversational RAG assistant: a shallow embedding of the orchestration core

    The development follows the TypeScript sources:
    - [src/components/chatInterface.tsx]: [parseCheckpointMetadata], [loadMessages]
      and (second half of the file) [parseSummary];
    - [src/lib/graph.ts]: [createOrGetConversation] and the hourly sweep;
    - [src/lib/agent.ts]: [VectorSearchRunnable.invoke];
    - the chat route: [convertMessageContentToString], [handleChatStream],
      [GET] and [POST].

    A [string] stands for the JavaScript string with the same code units, so
    the strings of the model are those whose code units are all below 256;
    white space is the part of the JavaScript set that lies in that range.
    The literals the code compares against (labels, bullets, line feeds,
    patterns) are ASCII, and letter case is modelled for ASCII letters. *)

From Stdlib Require Import ZArith Bool Ascii String List Permutation Sorted Lia.
From stdpp Require Import base option list gmap strings sorting.
Import ListNotations.
Local Open Scope string_scope.
Local Open Scope list_scope.

(** ** JavaScript string primitives used by the sources *)

Module JsString.

(** [String.prototype.startsWith]. *)
Fixpoint startsWith (p s : string) : bool :=
  match p with
  | EmptyString => true
  | String a p' =>
      match s with
      | EmptyString => false
      | String b s' => if Ascii.eqb a b then startsWith p' s' else false
      end
  end.

(** [s.substring(n)] for a non-negative [n]. *)
Fixpoint substring_from (n : nat) (s : string) : string :=
  match n with
  | O => s
  | S n' => match s with
            | EmptyString => EmptyString
            | String _ s' => substring_from n' s'
            end
  end.

Definition snoc (s : string) (c : ascii) : string := s +:+ String c EmptyString.

(** Worker of [split]: [skip] counts the characters of a separator that was
    just recognised and still has to be consumed, [cur] is the piece under
    construction. *)
Fixpoint split_go (sep s : string) (skip : nat) (cur : string) : list string :=
  match s with
  | EmptyString => [cur]
  | String c s' =>
      match skip with
      | S k => split_go sep s' k cur
      | O =>
          if startsWith sep s
          then cur :: split_go sep s' (String.length sep - 1) EmptyString
          else split_go sep s' 0 (snoc cur c)
      end
  end.

(** [s.split(sep)] for a non-empty separator: the pieces between the
    occurrences of [sep], scanned left to right; the empty string yields one
    empty piece. *)
Definition split (sep s : string) : list string := split_go sep s 0 EmptyString.

(** [arr.join(sep)]. *)
Fixpoint join (sep : string) (l : list string) : string :=
  match l with
  | [] => EmptyString
  | [x] => x
  | x :: rest => x +:+ sep +:+ join sep rest
  end.

(** White space and line terminators, as [trim] and the class of blanks of a
    regular expression strip them: TAB, LF, VT, FF, CR, SPACE and the
    no-break space U+00A0. The remaining ones (U+1680, U+2000 to U+200A,
    U+2028, U+2029, U+202F, U+205F, U+3000, U+FEFF) are code units above
    255. *)
Definition isWhiteSpace (c : ascii) : bool :=
  let n := nat_of_ascii c in
  (Nat.leb 9 n && Nat.leb n 13) || Nat.eqb n 32 || Nat.eqb n 160.

Fixpoint trimStart (s : string) : string :=
  match s with
  | EmptyString => EmptyString
  | String c s' => if isWhiteSpace c then trimStart s' else s
  end.

(** Removes trailing blanks: a character is dropped when it is a blank and
    everything after it has been dropped. *)
Fixpoint trimEnd (s : string) : string :=
  match s with
  | EmptyString => EmptyString
  | String c s' =>
      match trimEnd s' with
      | EmptyString => if isWhiteSpace c then EmptyString else String c EmptyString
      | t => String c t
      end
  end.

(** [String.prototype.trim]. *)
Definition trim (s : string) : string := trimEnd (trimStart s).

(** Worker of [replace]: copies [s] up to the first occurrence of [pat]. *)
Fixpoint replace_go (pat by_ s : string) : string :=
  match s with
  | EmptyString => if startsWith pat s then by_ else EmptyString
  | String c s' =>
      if startsWith pat s
      then by_ +:+ substring_from (String.length pat) s
      else String c (replace_go pat by_ s')
  end.

(** [s.replace(pat, by)] with a string pattern: only the first occurrence is
    replaced. *)
Definition replace (pat by_ s : string) : string := replace_go pat by_ s.

(** Truthiness of a string: only the empty string is falsy. *)
Definition truthy (s : string) : bool :=
  match s with EmptyString => false | _ => true end.

End JsString.

(** ** The summary projector ([parseSummary], chat history side bar) *)

Module Summary.
Import JsString.

Record FormattedSummary := mkFormatted {
  discussions : list string;
  lastTask : list string;
  context : list string
}.

Definition LF : string := String (ascii_of_nat 10) EmptyString.

Definition label_discussions : string := "Discussions till now:".
Definition label_lastTask : string := "Last task or action item assigned:".
Definition label_context : string := "Important context for next interactions:".

(** The chain [.replace(label, '').trim().split('\n').filter(..).map(..)]
    shared by the three branches of the loop. *)
Definition bullets (label section : string) : list string :=
  map (fun line => substring_from 2 (trim line))
      (List.filter (fun line => startsWith "-" (trim line))
              (split LF (trim (replace label EmptyString section)))).

(** One iteration of [for (const section of sections)]. *)
Definition step (formatted : FormattedSummary) (section : string) : FormattedSummary :=
  if startsWith label_discussions section then
    mkFormatted (bullets label_discussions section) (lastTask formatted) (context formatted)
  else if startsWith label_lastTask section then
    mkFormatted (discussions formatted) (bullets label_lastTask section) (context formatted)
  else if startsWith label_context section then
    mkFormatted (discussions formatted) (lastTask formatted) (bullets label_context section)
  else formatted.

Definition parseSummary (summary : string) : FormattedSummary :=
  let sections := split (LF +:+ LF) summary in
  fold_left step sections (mkFormatted [] [] []).

(** A summary as the projector expects it: a section is its label, then one
    line per item, each introduced by a dash and a blank; sections are set
    apart by an empty line, and a bucket without items has no section. *)
Definition render_line (item : string) : string := "- " +:+ item.

Definition render_section (label : string) (items : list string) : string :=
  label +:+ LF +:+ join LF (map render_line items).

Definition render_sections (f : FormattedSummary) : list string :=
  (match discussions f with [] => [] | items => [render_section label_discussions items] end)
  ++ (match lastTask f with [] => [] | items => [render_section label_lastTask items] end)
  ++ (match context f with [] => [] | items => [render_section label_context items] end).

Definition render_summary (f : FormattedSummary) : string :=
  join (LF +:+ LF) (render_sections f).

Definition is_LF (c : ascii) : bool := Ascii.eqb c (ascii_of_nat 10).

(** No line feed anywhere in the text. *)
Fixpoint one_line (s : string) : bool :=
  match s with
  | EmptyString => true
  | String c s' => negb (is_LF c) && one_line s'
  end.

(** Every line feed of the text is followed by a character that is not a
    line feed: the text holds no empty line and does not end in a line
    feed. *)
Fixpoint tight (s : string) : bool :=
  match s with
  | EmptyString => true
  | String c s' =>
      (if is_LF c
       then match s' with
            | EmptyString => false
            | String d _ => negb (is_LF d)
            end
       else true) && tight s'
  end.

(** Text made of ASCII characters only (codes below 128). *)
Fixpoint ascii_text (s : string) : bool :=
  match s with
  | EmptyString => true
  | String c s' => Nat.ltb (nat_of_ascii c) 128 && ascii_text s'
  end.

(** An item that survives the round trip: ASCII text on one line, not empty,
    no blank at its end. *)
Definition plain_item (item : string) : Prop :=
  ascii_text item = true
  /\ item <> EmptyString /\ one_line item = true /\ trimEnd item = item.

(** [absent label summary]: no section of the text starts with [label]. *)
Definition absent (label summary : string) : Prop :=
  Forall (fun sec => startsWith label sec = false) (split (LF +:+ LF) summary).

End Summary.

(** ** The checkpoint reconstructor ([loadMessages], chat interface) *)

Module Reconstructor.
Import JsString.

Inductive Role := user | assistant.

Record Message := mkMessage { role : Role; content : string }.

(** The persisted record, with the optional parts that
    [parseCheckpointMetadata] tests at run time made explicit. An object is
    kept as the list of its entries in [Object.keys] order. *)
Record Kwargs := mkKwargs { kw_content : option string }.
Record MessageData := mkMessageData { kwargs : option Kwargs }.
Record WriteData := mkWriteData {
  sender : string;
  messages : option (list MessageData)
}.
Record CheckpointMetadata := mkCheckpoint {
  step : Z;
  source : string;
  writes : option (list (string * option WriteData))
}.

Definition role_eqb (a b : Role) : bool :=
  match a, b with
  | user, user | assistant, assistant => true
  | _, _ => false
  end.

Definition parseCheckpointMetadata (metadata : CheckpointMetadata) : option Message :=
  match writes metadata with
  | None => None                                   (* !metadata.writes *)
  | Some ws =>
      match ws with
      | [] => None                                 (* no key at all *)
      | (key, data) :: _ =>
          if negb (truthy key) then None           (* !key *)
          else
            match data with
            | None => None                         (* data?.messages *)
            | Some d =>
                match messages d with
                | None | Some [] => None           (* !data.messages[0] *)
                | Some (messageData :: _) =>
                    match kwargs messageData with
                    | None => None                 (* kwargs?.content *)
                    | Some kw =>
                        match kw_content kw with
                        | None => None
                        | Some c =>
                            if negb (truthy c) then None
                            else
                              let r :=
                                if String.eqb (sender d) "user"
                                   || (String.eqb (source metadata) "input"
                                       && String.eqb key "__start__")
                                then user else assistant in
                              Some (mkMessage r c)
                        end
                    end
                end
            end
      end
  end.

(** [Array.prototype.sort] with a comparator. The language requires the sort
    to be stable, and for a consistent comparator a stable sort has exactly one
    result; it is computed here by insertion from the right, each element
    going in front of the first one it does not exceed. *)
Fixpoint sort_insert {A} (cmp : A -> A -> Z) (x : A) (l : list A) : list A :=
  match l with
  | [] => [x]
  | y :: r => if (cmp x y <=? 0)%Z then x :: l else y :: sort_insert cmp x r
  end.

Fixpoint js_sort {A} (cmp : A -> A -> Z) (l : list A) : list A :=
  match l with
  | [] => []
  | x :: r => sort_insert cmp x (js_sort cmp r)
  end.

(** [(a, b) => a.metadata.step - b.metadata.step] *)
Definition by_step (a b : CheckpointMetadata) : Z := (step a - step b)%Z.

(** [arr.filter((x, index) => ...)], the callback seeing the index. *)
Fixpoint filter_indexed {A} (f : A -> nat -> bool) (index : nat) (l : list A) : list A :=
  match l with
  | [] => []
  | x :: r =>
      if f x index then x :: filter_indexed f (S index) r
      else filter_indexed f (S index) r
  end.

Definition same_message (prevMsg msg : Message) : bool :=
  role_eqb (role prevMsg) (role msg) && String.eqb (content prevMsg) (content msg).

(** The callback of the last [.filter]: [array] is the array being filtered,
    not the result built so far. *)
Definition not_repeat (array : list Message) (msg : Message) (index : nat) : bool :=
  match index with
  | O => true
  | S i =>
      match nth_error array i with
      | Some prevMsg => negb (same_message prevMsg msg)
      | None => true
      end
  end.

Definition drop_repeats (array : list Message) : list Message :=
  filter_indexed (not_repeat array) 0 array.

(** The same filter written as a left-to-right scan that remembers the
    previous element of the input; [drop_repeats_scan] relates the two. *)
Fixpoint scan_after (prevMsg : Message) (l : list Message) : list Message :=
  match l with
  | [] => []
  | msg :: r =>
      if same_message prevMsg msg then scan_after msg r
      else msg :: scan_after msg r
  end.

Definition scan (l : list Message) : list Message :=
  match l with
  | [] => []
  | msg :: r => msg :: scan_after msg r
  end.

(** No message repeats the role and the content of the one just before it. *)
Definition adjacent_distinct (l : list Message) : Prop :=
  forall (i : nat) (a b : Message),
    nth_error l i = Some a -> nth_error l (S i) = Some b ->
    ~ (role a = role b /\ content a = content b).

(** Adjacent messages differ, as a relation between neighbours. *)
Definition differs (a b : Message) : Prop := same_message a b = false.

(** Checkpoints compared by their step. *)
Definition step_le (a b : CheckpointMetadata) : Prop := (step a <= step b)%Z.

(** [.map(parse).filter(msg => msg !== null)] *)
Fixpoint parse_all (cps : list CheckpointMetadata) : list Message :=
  match cps with
  | [] => []
  | c :: r =>
      match parseCheckpointMetadata c with
      | Some m => m :: parse_all r
      | None => parse_all r
      end
  end.

(** The value handed to [setMessages] by [loadMessages]. *)
Definition loadMessages (checkpoints : list CheckpointMetadata) : list Message :=
  drop_repeats (parse_all (js_sort by_step checkpoints)).

(** The same pipeline with every message paired with the checkpoint it was
    parsed from; used to speak about the origin of an output message. *)
Fixpoint parse_all_traced (cps : list CheckpointMetadata)
  : list (CheckpointMetadata * Message) :=
  match cps with
  | [] => []
  | c :: r =>
      match parseCheckpointMetadata c with
      | Some m => (c, m) :: parse_all_traced r
      | None => parse_all_traced r
      end
  end.

Definition loadMessages_traced (checkpoints : list CheckpointMetadata)
  : list (CheckpointMetadata * Message) :=
  let array := parse_all_traced (js_sort by_step checkpoints) in
  filter_indexed (fun p index => not_repeat (map snd array) (snd p) index) 0 array.

(** A checkpoint as the graph stores it after one node ran: a single entry
    in [writes], carrying one message. *)
Definition checkpoint (step_ : Z) (source_ key sender_ text : string) : CheckpointMetadata :=
  mkCheckpoint step_ source_
    (Some [(key, Some (mkWriteData sender_
                         (Some [mkMessageData (Some (mkKwargs (Some text)))])))]).

End Reconstructor.

(** ** The session registry ([createOrGetConversation], graph module) *)

Module Registry.
Import JsString.

(** A thrown value: an [Error] with its message, or anything else. *)
Inductive JsError := ErrorObj (message : string) | ThrownValue (shown : string).

Definition Res (A : Type) : Type := JsError + A.

(** What the sources call on the world when resolving a thread: [uuidv4()],
    [Date.now()] and [initializeGraph()], whose result is the compiled graph
    (of type [G]) or a thrown error. *)
Record Env (G : Type) := mkEnv {
  uuidv4 : string;
  now : Z;
  initializeGraph : Res G
}.
Arguments uuidv4 {G}.
Arguments now {G}.
Arguments initializeGraph {G}.

Record Conversation (G : Type) := mkConversation {
  graph : G;
  thread_id : string
}.
Arguments mkConversation {G}.
Arguments graph {G}.
Arguments thread_id {G}.

(** [existingThreadId && activeThreads.has(existingThreadId)] *)
Definition tracked (existingThreadId : option string) (activeThreads : gmap string Z) : bool :=
  match existingThreadId with
  | Some id => truthy id && bool_decide (is_Some (activeThreads !! id))
  | None => false
  end.

(** [existingThreadId || uuidv4()] *)
Definition or_fresh (existingThreadId : option string) (fresh : string) : string :=
  match existingThreadId with
  | Some id => if truthy id then id else fresh
  | None => fresh
  end.

(** Returns the liveness map after the call and what the call resolves to
    (or rejects with). In the first branch the id is present, [default] only
    unwraps it. *)
Definition createOrGetConversation {G} (env : Env G)
    (existingThreadId : option string) (activeThreads : gmap string Z)
  : gmap string Z * Res (Conversation G) :=
  if tracked existingThreadId activeThreads then
    (activeThreads,
     match initializeGraph env with
     | inl e => inl e
     | inr g => inr (mkConversation g (default EmptyString existingThreadId))
     end)
  else
    let threadId := or_fresh existingThreadId (uuidv4 env) in
    let activeThreads' := <[threadId := now env]> activeThreads in
    (activeThreads',
     match initializeGraph env with
     | inl e => inl e
     | inr g => inr (mkConversation g threadId)
     end).

(** The thread id a call resolved to, when it resolved. *)
Definition resolved_id {G} (r : gmap string Z * Res (Conversation G)) : option string :=
  match snd r with
  | inr conv => Some (thread_id conv)
  | inl _ => None
  end.

(** The hourly sweep: ids idle for more than 24 hours are deleted. *)
Definition sweep (now_ : Z) (activeThreads : gmap string Z) : gmap string Z :=
  filter (fun kv => ¬ (now_ - kv.2 > 24 * 60 * 60 * 1000)%Z) activeThreads.

(** *** The graph cache ([initializeGraph], [createWorkflow])

    The module-level variables [graph] and [memory], both [null] until
    assigned. *)
Record Caches (Saver G : Type) := mkCaches {
  cached_graph : option G;
  cached_memory : option Saver
}.
Arguments mkCaches {Saver G}.
Arguments cached_graph {Saver G}.
Arguments cached_memory {Saver G}.

(** Where a call of [initializeGraph] stands. The function gives up control
    at its [await]s, and other calls may run in between: at
    [await createSafePostgresSaver()] inside [createWorkflow], and at
    [graph = await createWorkflow()] once the workflow is compiled. *)
Inductive Phase (G : Type) :=
| AwaitSaver
| AwaitWorkflow (compiled : G)
| Settled (result : Res G).
Arguments AwaitSaver {G}.
Arguments AwaitWorkflow {G}.
Arguments Settled {G}.

Definition is_settled {G} (ph : Phase G) : bool :=
  match ph with Settled _ => true | _ => false end.

(** The synchronous start of a call: the test of [graph], then inside
    [createWorkflow] the test of [memory]; [compile] stands for building the
    state graph and compiling it around the checkpointer. *)
Definition initializeGraph_begin {Saver G} (compile : Saver -> G)
    (c : Caches Saver G) : Phase G :=
  match cached_graph c with
  | Some g => Settled (inr g)
  | None =>
      match cached_memory c with
      | Some m => AwaitWorkflow (compile m)
      | None => AwaitSaver
      end
  end.

(** A call taken up again after an [await]; [saver] is what its own
    [createSafePostgresSaver()] settled with. A rejection is logged and
    rethrown and assigns nothing; otherwise [memory] is assigned and the
    workflow compiled, and at the next resumption [graph] is assigned and
    returned. *)
Definition initializeGraph_resume {Saver G} (compile : Saver -> G)
    (saver : Res Saver) (ph : Phase G) (c : Caches Saver G)
  : Caches Saver G * Phase G :=
  match ph with
  | AwaitSaver =>
      match saver with
      | inl e => (c, Settled (inl e))
      | inr m => (mkCaches (cached_graph c) (Some m), AwaitWorkflow (compile m))
      end
  | AwaitWorkflow g => (mkCaches (Some g) (cached_memory c), Settled (inr g))
  | Settled r => (c, Settled r)
  end.

(** The calls of [initializeGraph] in flight, in the order they were
    started, with the caches they share. *)
Record Calls (Saver G : Type) := mkCalls {
  caches : Caches Saver G;
  calls : list (Phase G)
}.
Arguments mkCalls {Saver G}.
Arguments caches {Saver G}.
Arguments calls {Saver G}.

(** What happens next: a new call starts, or the call at some position is
    taken up again. *)
Inductive Turn (Saver : Type) :=
| Start
| Resume (index : nat) (saver : Res Saver).
Arguments Start {Saver}.
Arguments Resume {Saver}.

Definition turn {Saver G} (compile : Saver -> G) (sys : Calls Saver G)
    (t : Turn Saver) : Calls Saver G :=
  match t with
  | Start =>
      mkCalls (caches sys) (calls sys ++ [initializeGraph_begin compile (caches sys)])
  | Resume index saver =>
      match calls sys !! index with
      | Some ph =>
          let '(c, ph') := initializeGraph_resume compile saver ph (caches sys) in
          mkCalls c (<[index := ph']> (calls sys))
      | None => sys
      end
  end.

Definition turns {Saver G} (compile : Saver -> G) (sys : Calls Saver G)
    (ts : list (Turn Saver)) : Calls Saver G :=
  fold_left (turn compile) ts sys.

Definition is_start {Saver} (t : Turn Saver) : bool :=
  match t with Start => true | Resume _ _ => false end.

End Registry.

(** ** The retrieval-augmented responder ([VectorSearchRunnable.invoke]) *)

Module Responder.
Import JsString.
Export Registry.

(** [String.prototype.includes] *)
Fixpoint includes (pat s : string) : bool :=
  startsWith pat s ||
  match s with
  | EmptyString => false
  | String _ s' => includes pat s'
  end.

Definition lowerChar (c : ascii) : ascii :=
  let n := nat_of_ascii c in
  if Nat.leb 65 n && Nat.leb n 90 then ascii_of_nat (n + 32) else c.

Definition upperChar (c : ascii) : ascii :=
  let n := nat_of_ascii c in
  if Nat.leb 97 n && Nat.leb n 122 then ascii_of_nat (n - 32) else c.

Fixpoint toLowerCase (s : string) : string :=
  match s with
  | EmptyString => EmptyString
  | String c s' => String (lowerChar c) (toLowerCase s')
  end.

(** [word.charAt(0).toUpperCase() + word.slice(1)] *)
Definition capitalize (word : string) : string :=
  match word with
  | EmptyString => EmptyString
  | String c rest => String (upperChar c) rest
  end.

(** Messages of the chat history, by class. *)
Inductive BaseMessage :=
| HumanMessage (content : string)
| AIMessage (content : string)
| OtherMessage (content : string).

(** A metadata field that may be missing, a string or an array of strings. *)
Inductive Field := FUndefined | FString (s : string) | FArray (items : list string).

Record Metadata := mkMetadata {
  m_type : string;
  m_name : option string;
  m_company_name : option string;
  m_description : option string;
  m_batch : option string;
  m_founded_date : option string;
  m_status : option string;
  m_industries : Field;
  m_founders : Field;
  m_qa_pairs : option (list string)
}.

Record Match (Score : Type) := mkMatch {
  score : Score;
  metadata : option Metadata
}.
Arguments mkMatch {Score}.
Arguments score {Score}.
Arguments metadata {Score}.

Record SearchResults (Score : Type) := mkSearchResults {
  matches : option (list (Match Score))
}.
Arguments mkSearchResults {Score}.
Arguments matches {Score}.

Inductive FormattedResult :=
| Company (name description batch founded_date industries founders score_ : string)
| Application (company_name description batch status : string)
              (qa_pairs : list string) (score_ : string).

(** Content returned by the completion service: text or structured. *)
Inductive LlmContent (Structured : Type) :=
| TextContent (s : string)
| StructuredContent (c : Structured).
Arguments TextContent {Structured}.
Arguments StructuredContent {Structured}.

(** Calls made on the external services, in the order they are started. *)
Inductive Call :=
| CallEmbed (text : string)
| CallQuery (topK : nat) (typeFilter : string)
| CallLlm (prompt : string).

Definition is_llm_call (c : Call) : bool :=
  match c with CallLlm _ => true | _ => false end.

(** [query.toLowerCase().includes('application') ? 'application' : 'company'] *)
Definition classify (query : string) : string :=
  if includes "application" (toLowerCase query) then "application" else "company".

(** The calls made up to and including the index query. *)
Definition retrieval_calls (query : string) : list Call :=
  [CallEmbed query; CallQuery 2 (classify query); CallEmbed query].

(** [x || 'N/A'] on an optional string *)
Definition or_na (x : option string) : string :=
  match x with
  | Some s => if truthy s then s else "N/A"
  | None => "N/A"
  end.

Definition format_industries (f : Field) : string :=
  match f with
  | FArray items =>
      join ", "
        (map (fun i => join " " (map capitalize (split "-" i)))
             (map trim (split "," (join "," items))))
  | FString s => if truthy s then s else "N/A"
  | FUndefined => "N/A"
  end.

Definition format_founders (f : Field) : string :=
  match f with
  | FArray items => join ", " items
  | FString s => if truthy s then s else "N/A"
  | FUndefined => "N/A"
  end.

Definition NO_RESULTS : string := "No matching results found in the database.".
Definition APOLOGY : string :=
  "Sorry, I encountered an error while searching the database. Please try again.".

Record GraphState := mkGraphState {
  input : string;
  chat_history : list BaseMessage
}.

(** The object returned by [invoke]: a state update. *)
Record Update := mkUpdate {
  u_chat_history : list BaseMessage;
  u_context : string;
  u_answer : string
}.

(** The [chat_history] channel is declared with [messagesStateReducer]: the
    messages of an update are appended to the ones already in the state. *)
Definition reduce_history (st : GraphState) (u : Update) : list BaseMessage :=
  chat_history st ++ u_chat_history u.

Definition render_message (m : BaseMessage) : string :=
  match m with
  | HumanMessage c => "Human: " +:+ c
  | AIMessage c => "Assistant: " +:+ c
  | OtherMessage c => c
  end.

(** Effects of [invoke]: the calls started so far are threaded through, and a
    step either yields a value or throws. *)
Definition M (A : Type) : Type := list Call -> list Call * Res A.

Definition ret {A} (a : A) : M A := fun log => (log, inr a).
Definition throw {A} (e : JsError) : M A := fun log => (log, inl e).
Definition bind {A B} (m : M A) (k : A -> M B) : M B :=
  fun log =>
    match m log with
    | (log', inr a) => k a log'
    | (log', inl e) => (log', inl e)
    end.
Definition started (c : Call) : M unit := fun log => (log ++ [c], inr tt).
Definition lift {A} (r : Res A) : M A := fun log => (log, r).

Notation "'let*' x ':=' m 'in' k" := (bind m (fun x => k))
  (at level 10, x name, m at level 200, k at level 200).

Section WithServices.
Context {Vec Score Structured : Type}.

(** The service bundle: every call may succeed or throw on its own;
    [embedQuery n] is the outcome of the [n]-th embedding request of the
    invocation. The template engine, [JSON.stringify] and [toFixed] are
    library code. *)
Record Services := mkServices {
  embedQuery : nat -> string -> Res Vec;
  indexQuery : Vec -> nat -> string -> Res (SearchResults Score);
  llmInvoke : string -> Res (LlmContent Structured);
  promptFormat : string -> string -> string -> Res string;
  stringifyResults : bool -> list FormattedResult -> string;
  stringifyContent : Structured -> string;
  percent2 : Score -> string
}.

Variable svc : Services.

(** The callback of [searchResults.matches.map]; reading [metadata.type] of a
    match without metadata throws a [TypeError]. *)
Definition formatMatch (m : Match Score) : Res FormattedResult :=
  match metadata m with
  | None => inl (ErrorObj "Cannot read properties of undefined (reading 'type')")
  | Some md =>
      if String.eqb (m_type md) "company" then
        inr (Company (or_na (m_name md)) (or_na (m_description md))
                     (or_na (m_batch md)) (or_na (m_founded_date md))
                     (format_industries (m_industries md))
                     (format_founders (m_founders md))
                     (percent2 svc (score m)))
      else
        inr (Application (or_na (m_company_name md)) (or_na (m_description md))
                         (or_na (m_batch md)) (or_na (m_status md))
                         (match m_qa_pairs md with
                          | Some qa => firstn 3 qa
                          | None => []
                          end)
                         (percent2 svc (score m)))
  end.

Fixpoint formatAll (ms : list (Match Score)) : Res (list FormattedResult) :=
  match ms with
  | [] => inr []
  | m :: rest =>
      match formatMatch m with
      | inl e => inl e
      | inr r =>
          match formatAll rest with
          | inl e => inl e
          | inr rs => inr (r :: rs)
          end
      end
  end.

(** [Promise.all([index.query(..), embeddings.embedQuery(query)])]: both
    requests are started, and the whole rejects when either one does. *)
Definition search_in_parallel (queryEmbedding : Vec) (typeFilter query : string)
  : M (SearchResults Score) :=
  let* _ := started (CallQuery 2 typeFilter) in
  let* _ := started (CallEmbed query) in
  match indexQuery svc queryEmbedding 2 typeFilter, embedQuery svc 1 query with
  | inl e, _ => throw e
  | inr _, inl e => throw e
  | inr results, inr _ => ret results
  end.

(** The retrieval step of [invoke] on its own: the value the two [await]s
    leave in [searchResults], or what was thrown on the way. *)
Definition retrieval (state : GraphState) : Res (SearchResults Score) :=
  match embedQuery svc 0 (input state) with
  | inl e => inl e
  | inr queryEmbedding =>
      snd (search_in_parallel queryEmbedding (classify (input state)) (input state) [])
  end.

(** The body of the [try] block. *)
Definition try_body (state : GraphState) : M Update :=
  let query := input state in
  let* _ := started (CallEmbed query) in
  let* queryEmbedding := lift (embedQuery svc 0 query) in
  let typeFilter := classify query in
  let* searchResults := search_in_parallel queryEmbedding typeFilter query in
  match matches searchResults with
  | None | Some [] =>
      ret (mkUpdate [HumanMessage query; AIMessage NO_RESULTS] EmptyString NO_RESULTS)
  | Some ms =>
      let* formattedResults := lift (formatAll ms) in
      let* prompt := lift (promptFormat svc
                        (join Summary.LF (map render_message (chat_history state)))
                        query
                        (stringifyResults svc true formattedResults)) in
      let* _ := started (CallLlm prompt) in
      let* llmResponse := lift (llmInvoke svc prompt) in
      let answer :=
        match llmResponse with
        | TextContent s => s
        | StructuredContent c => stringifyContent svc c
        end in
      ret (mkUpdate [HumanMessage query; AIMessage answer]
                    (stringifyResults svc false formattedResults) answer)
  end.

(** [invoke]: the [try] body, with the [catch] block turning any thrown value
    into the apology update. Returns the calls made and the update. *)
Definition invoke (state : GraphState) (log : list Call) : list Call * Update :=
  match try_body state log with
  | (log', inr u) => (log', u)
  | (log', inl _) =>
      let errorMsg := APOLOGY in
      (log', mkUpdate [HumanMessage (input state); AIMessage errorMsg] EmptyString errorMsg)
  end.

(** The update built by the [catch] block. *)
Definition apology_update (state : GraphState) : Update :=
  mkUpdate [HumanMessage (input state); AIMessage APOLOGY] EmptyString APOLOGY.

(** The update built when nothing was retrieved. *)
Definition no_results_update (state : GraphState) : Update :=
  mkUpdate [HumanMessage (input state); AIMessage NO_RESULTS] EmptyString NO_RESULTS.

(** [!searchResults.matches || searchResults.matches.length === 0] *)
Definition zero_matches (results : SearchResults Score) : Prop :=
  matches results = None \/ matches results = Some [].

(** Retrieval went through and returned the non-empty list [ms]. *)
Definition retrieved (state : GraphState) (ms : list (Match Score)) : Prop :=
  exists v v' results,
    embedQuery svc 0 (input state) = inr v
    /\ indexQuery svc v 2 (classify (input state)) = inr results
    /\ embedQuery svc 1 (input state) = inr v'
    /\ matches results = Some ms /\ ms <> [].

(** The prompt rendered for the formatted results [fr]. *)
Definition rendered (state : GraphState) (fr : list FormattedResult) : Res string :=
  promptFormat svc (join Summary.LF (map render_message (chat_history state)))
               (input state) (stringifyResults svc true fr).

(** Some step of the [try] block is reached and throws: the embedding of the
    query, the index query or the embedding requested next to it, the
    formatting of a match, the rendering of the prompt, or the completion. *)
Inductive StepThrows (state : GraphState) : Prop :=
| throws_embedding e :
    embedQuery svc 0 (input state) = inl e -> StepThrows state
| throws_query v e :
    embedQuery svc 0 (input state) = inr v ->
    indexQuery svc v 2 (classify (input state)) = inl e -> StepThrows state
| throws_second_embedding v e :
    embedQuery svc 0 (input state) = inr v ->
    embedQuery svc 1 (input state) = inl e -> StepThrows state
| throws_formatting ms e :
    retrieved state ms -> formatAll ms = inl e -> StepThrows state
| throws_prompt ms fr e :
    retrieved state ms -> formatAll ms = inr fr ->
    rendered state fr = inl e -> StepThrows state
| throws_completion ms fr prompt e :
    retrieved state ms -> formatAll ms = inr fr ->
    rendered state fr = inr prompt ->
    llmInvoke svc prompt = inl e -> StepThrows state.

End WithServices.
Arguments Services : clear implicits.

(** A small service bundle for examples: the embedding outcomes are given
    per request, the index returns [found], the completion service returns
    [completion], and the prompt is the query followed by the results. *)
Definition services_with (embed : nat -> Res unit)
    (found : option (list (Match unit)))
    (completion : Res (LlmContent unit)) : Services unit unit unit :=
  mkServices (fun n _ => embed n)
             (fun _ _ _ => inr (mkSearchResults found))
             (fun _ => completion)
             (fun _ query results => inr (query +:+ " " +:+ results))
             (fun _ rs => if Nat.eqb (length rs) 0 then "[]" else "[...]")
             (fun _ => "{}")
             (fun _ => "87.50").

Definition a_company : Match unit :=
  mkMatch tt (Some (mkMetadata "company" (Some "Rippling") None None (Some "W17")
                               None None (FArray ["b2b"; "hr-tech"]) FUndefined None)).

(** The text taken from the completion: verbatim when it is a string,
    [JSON.stringify] of it otherwise. *)
Definition answer_of {Vec Score Structured : Type}
    (svc : Services Vec Score Structured) (content : LlmContent Structured) : string :=
  match content with
  | TextContent s => s
  | StructuredContent c => stringifyContent svc c
  end.

(** The scalar fields of a formatted record. *)
Definition scalar_fields (r : FormattedResult) : list string :=
  match r with
  | Company name description batch founded_date _ _ _ =>
      [name; description; batch; founded_date]
  | Application company_name description batch status _ _ =>
      [company_name; description; batch; status]
  end.

Definition qa_of (r : FormattedResult) : list string :=
  match r with
  | Company _ _ _ _ _ _ _ => []
  | Application _ _ _ _ qa _ => qa
  end.

Definition is_company (r : FormattedResult) : bool :=
  match r with Company _ _ _ _ _ _ _ => true | Application _ _ _ _ _ _ => false end.

(** *** The graph node around the responder ([ycVectorNode]) *)

Record NodeMessage := mkNodeMessage {
  nm_content : string;
  nm_name : option string
}.

(** The update returned to the outer graph. *)
Record NodeUpdate := mkNodeUpdate {
  n_messages : list NodeMessage;
  n_sender : string
}.

Definition REPHRASE : string :=
  "I apologize, but I encountered an error. Could you rephrase your question?".

Definition SENDER : string := "YCVectorKnowledge".

Definition message_content (m : BaseMessage) : string :=
  match m with
  | HumanMessage c => c
  | AIMessage c => c
  | OtherMessage c => c
  end.

(** [ycVectorNode]: the last message of the state is the query and the whole
    message list is the chat history. The inner workflow is built anew on
    every call, with a fresh in-memory checkpointer and the single node
    [model] between START and END, so that [app.invoke] is one run of
    [invoke] and [result.answer] is the answer of its update. With no message
    at all, reading [lastMessage.content] throws and the [catch] block
    answers. *)
Definition ycVectorNode {Vec Score Structured : Type}
    (svc : Services Vec Score Structured)
    (messages : list BaseMessage) (log : list Call) : list Call * NodeUpdate :=
  match last messages with
  | None =>
      (log, mkNodeUpdate [mkNodeMessage REPHRASE (Some SENDER)] SENDER)
  | Some lastMessage =>
      let input_ := message_content lastMessage in
      let '(log', result) := invoke svc (mkGraphState input_ messages) log in
      (log', mkNodeUpdate [mkNodeMessage (u_answer result) None] SENDER)
  end.

End Responder.

(** ** The streaming gateway (chat route) *)

Module Gateway.
Import JsString.
Export Registry.

(** *** Message content and its conversion to text *)

Inductive MessageContentComplex :=
| TextItem (text : string)                  (* type: 'text' *)
| ImageUrlItem (image_url : string)         (* type: 'image_url', as interpolated *)
| OtherTypedItem                            (* any other type *)
| UntypedItem.                              (* no 'type' property *)

Inductive ContentItem :=
| ItemString (s : string)
| ItemComplex (item : MessageContentComplex).

(** [truthy_other] tells whether a value that is neither a string nor an array
    is truthy. *)
Inductive MessageContent :=
| ContentString (s : string)
| ContentArray (items : list ContentItem)
| ContentOther (truthy_other : bool).

Definition handleComplexContent (item : MessageContentComplex) : string :=
  match item with
  | TextItem text => text
  | ImageUrlItem image_url => "[Image: " +:+ image_url +:+ "]"
  | OtherTypedItem => EmptyString
  | UntypedItem => EmptyString
  end.

Definition convertMessageContentToString (content : MessageContent) : string :=
  match content with
  | ContentString s => s
  | ContentArray items =>
      join " "
        (List.filter truthy
           (map (fun item =>
                   match item with
                   | ItemString s => s
                   | ItemComplex c => handleComplexContent c
                   end) items))
  | ContentOther _ => EmptyString
  end.

Definition content_truthy (content : MessageContent) : bool :=
  match content with
  | ContentString s => truthy s
  | ContentArray _ => true
  | ContentOther b => b
  end.

(** [message.content ? convertMessageContentToString(message.content) : ""] *)
Definition contentToSend (content : MessageContent) : string :=
  if content_truthy content then convertMessageContentToString content else EmptyString.

(** *** What the graph streams *)

Inductive StreamMessage :=
| AIMessageChunk (content : MessageContent)
| NonAIMessage.

Definition isAIMessageChunk (m : StreamMessage) : bool :=
  match m with AIMessageChunk _ => true | NonAIMessage => false end.

(** A run of the async iterator returned by [graph.stream]: it yields
    messages, then ends or throws. *)
Inductive Generation :=
| GenEnd
| GenThrow (error : JsError)
| GenYield (message : StreamMessage) (rest : Generation).

(** The compiled graph, seen through [graph.stream(input, options)] with the
    user text and the thread id. *)
Record Graph := mkGraph {
  stream : string -> string -> Res Generation
}.

(** *** Events and the writer *)

Inductive Event :=
| DataEvent (text : string)
| DoneEvent
| ErrorEvent (errorMessage : string)
| JsonErrorEvent (json : string).

Definition NL2 : string := Summary.LF +:+ Summary.LF.

(** The text handed to [encoder.encode]. *)
Definition frame (e : Event) : string :=
  match e with
  | DataEvent text => "data: " +:+ text +:+ NL2
  | DoneEvent => "data: [DONE]" +:+ NL2
  | ErrorEvent errorMessage => "data: Error: " +:+ errorMessage +:+ NL2
  | JsonErrorEvent json => "data: " +:+ json +:+ NL2
  end.

Inductive WriterOp := Write (e : Event) | Close.

(** The writer of the transform stream. [attempts] lists the operations the
    code asked for, each with whether it took effect. An operation takes
    effect when the stream has not been closed and the client is still there;
    [transport] is the number of operations the client stays for ([None]:
    it never leaves), and once the stream has failed every later operation
    rejects with [failure]. *)
Record Writer := mkWriter {
  attempts : list (WriterOp * bool);
  is_open : bool;
  transport : option nat;
  failure : JsError
}.

Definition transport_alive (t : option nat) : bool :=
  match t with Some O => false | _ => true end.

Definition transport_next (t : option nat) : option nat :=
  match t with Some (S n) => Some n | other => other end.

Definition is_close (op : WriterOp) : bool :=
  match op with Close => true | Write _ => false end.

Record GState := mkGState {
  writer : Writer;
  isStreamClosed : bool
}.

(** Effects of the handler: state passing with exceptions. *)
Definition G (A : Type) : Type := GState -> GState * Res A.

(** [await writer.write(..)] and [await writer.close()]. *)
Definition perform (op : WriterOp) : G unit :=
  fun st =>
    let w := writer st in
    let ok := is_open w && transport_alive (transport w) in
    let w' := mkWriter (attempts w ++ [(op, ok)])
                       (if ok then negb (is_close op) else is_open w)
                       (if ok then transport_next (transport w) else transport w)
                       (failure w) in
    (mkGState w' (isStreamClosed st), if ok then inr tt else inl (failure w)).

Definition set_closed : G unit :=
  fun st => (mkGState (writer st) true, inr tt).

Definition gbind {A B} (m : G A) (k : A -> G B) : G B :=
  fun st =>
    match m st with
    | (st', inr a) => k a st'
    | (st', inl e) => (st', inl e)
    end.

Notation "m >>> k" := (gbind m (fun _ => k)) (at level 65, right associativity).

(** [write(..); close(); isStreamClosed = true] *)
Definition finish_with (e : Event) : G unit :=
  perform (Write e) >>> perform Close >>> set_closed.

(** [error instanceof Error ? error.message : 'Unknown error'] *)
Definition error_message (error : JsError) : string :=
  match error with
  | ErrorObj message => message
  | ThrownValue _ => "Unknown error"
  end.

(** The [for await] loop over the response. *)
Fixpoint for_await (response : Generation) : G unit :=
  fun st =>
    match response with
    | GenEnd => (st, inr tt)
    | GenThrow error => (st, inl error)
    | GenYield message rest =>
        if isStreamClosed st then (st, inr tt)                      (* break *)
        else if negb (isAIMessageChunk message) then
          (if negb (isStreamClosed st) then finish_with DoneEvent st
           else (st, inr tt))                                       (* break *)
        else
          let text :=
            match message with
            | AIMessageChunk content => contentToSend content
            | NonAIMessage => EmptyString
            end in
          if truthy text && negb (isStreamClosed st) then
            match perform (Write (DataEvent text)) st with
            | (st', inr _) => for_await rest st'
            | (st', inl e) => (st', inl e)
            end
          else for_await rest st
    end.

(** The block after the loop. *)
Definition after_loop : G unit :=
  fun st => if negb (isStreamClosed st) then finish_with DoneEvent st else (st, inr tt).

(** The [catch] block of the detached function. *)
Definition on_error (error : JsError) : G unit :=
  fun st =>
    if negb (isStreamClosed st)
    then finish_with (ErrorEvent (error_message error)) st
    else (st, inr tt).

(** The detached async function: the loop, the block after it, and the
    [catch] block. The result is [inl] when the [catch] block itself throws
    (an unhandled rejection). *)
Definition stream_task (response : Generation) : G unit :=
  fun st =>
    match (for_await response >>> after_loop) st with
    | (st', inr _) => (st', inr tt)
    | (st', inl error) => on_error error st'
    end.

(** *** The handler *)

Inductive Response :=
| EventStream                                   (* 200, text/event-stream *)
| JsonResponse (status : Z) (error : string).  (* NextResponse.json({error}, {status}) *)

Record Outcome := mkOutcome {
  threads : gmap string Z;
  reply : option Response;       (* [None]: the handler rejected or never settles *)
  wire : list (WriterOp * bool)
}.

Definition new_writer (transport_ : option nat) (failure_ : JsError) : GState :=
  mkGState (mkWriter [] true transport_ failure_) false.

(** The outer [catch] of [handleChatStream]; [stringify_error] is
    [JSON.stringify({ error: .. })]. It is entered before the response is
    built, so the readable side of the transform stream has no reader and
    never gets one: the chunk handed to [writer.write] is queued, the promise
    of the write stays pending, and neither [writer.close()] nor the
    [return] after it is reached. The handler does not settle; the attempt
    is recorded as one that did not take effect. *)
Definition api_error (stringify_error : string -> string) (error : JsError)
    (threads_ : gmap string Z) (st : GState) : Outcome :=
  if negb (isStreamClosed st) then
    mkOutcome threads_ None
              (attempts (writer st)
               ++ [(Write (JsonErrorEvent (stringify_error (error_message error))), false)])
  else mkOutcome threads_ (Some (JsonResponse 500 (error_message error)))
                 (attempts (writer st)).

Definition handleChatStream (env : Env Graph) (stringify_error : string -> string)
    (transport_ : option nat) (failure_ : JsError)
    (message threadId : string) (activeThreads : gmap string Z) : Outcome :=
  let st := new_writer transport_ failure_ in
  match createOrGetConversation env (Some threadId) activeThreads with
  | (threads_, inl error) => api_error stringify_error error threads_ st
  | (threads_, inr conv) =>
      match stream (graph conv) message (thread_id conv) with
      | inl error => api_error stringify_error error threads_ st
      | inr response_ =>
          let '(st', _) := stream_task response_ st in
          mkOutcome threads_ (Some EventStream) (attempts (writer st'))
      end
  end.

(** The attempts on the writer when the detached task runs on a fresh
    stream. *)
Definition run_stream (transport_ : option nat) (failure_ : JsError)
    (response_ : Generation) : list (WriterOp * bool) :=
  attempts (writer (fst (stream_task response_ (new_writer transport_ failure_)))).

(** *** Reading a list of attempts *)

Definition is_done (a : WriterOp * bool) : bool :=
  match fst a with Write DoneEvent => true | _ => false end.

Definition is_close_attempt (a : WriterOp * bool) : bool := is_close (fst a).

Definition closed_ok (a : WriterOp * bool) : bool := is_close (fst a) && snd a.

(** A write that took effect. *)
Definition wrote (a : WriterOp * bool) : bool := negb (is_close (fst a)) && snd a.

(** What follows the first element satisfying [p]. *)
Fixpoint after {A} (p : A -> bool) (l : list A) : list A :=
  match l with
  | [] => []
  | x :: r => if p x then r else after p r
  end.

(** The texts of the data events, in the order they were asked for. *)
Fixpoint data_texts (tr : list (WriterOp * bool)) : list string :=
  match tr with
  | [] => []
  | (Write (DataEvent text), _) :: r => text :: data_texts r
  | _ :: r => data_texts r
  end.

(** The fragments the loop gets to see: the AI chunks in front of the first
    message of another kind. *)
Fixpoint ai_fragments (response_ : Generation) : list MessageContent :=
  match response_ with
  | GenYield (AIMessageChunk content) rest => content :: ai_fragments rest
  | _ => []
  end.

(** The texts of the fragments that have one. *)
Definition fragment_texts (response_ : Generation) : list string :=
  List.filter truthy (map contentToSend (ai_fragments response_)).

(** Cumulative streaming as the specification words it: the event for a
    fragment carries the whole answer built so far. *)
Fixpoint spec_cumulative (so_far : string) (texts : list string) : list string :=
  match texts with
  | [] => []
  | t :: r => (so_far +:+ t) :: spec_cumulative (so_far +:+ t) r
  end.

(** Successful data writes. *)
Definition data_ok (texts : list string) : list (WriterOp * bool) :=
  map (fun t => (Write (DataEvent t), true)) texts.

(** The ways a stream ends, after the data events that took effect: the
    sentinel and the close; the sentinel with a failing close, then the failing
    error event of the [catch] block; a failing sentinel; an error event (of
    either [catch] block) with its close, possibly failing; a failing data
    event. *)
Inductive Ending : list (WriterOp * bool) -> Prop :=
| ends_done :
    Ending [(Write DoneEvent, true); (Close, true)]
| ends_done_unclosed m :
    Ending [(Write DoneEvent, true); (Close, false); (Write (ErrorEvent m), false)]
| ends_done_lost m :
    Ending [(Write DoneEvent, false); (Write (ErrorEvent m), false)]
| ends_error ev :
    ev <> DoneEvent -> (forall t, ev <> DataEvent t) ->
    Ending [(Write ev, true); (Close, true)]
| ends_error_unclosed ev :
    ev <> DoneEvent -> (forall t, ev <> DataEvent t) ->
    Ending [(Write ev, true); (Close, false)]
| ends_error_lost ev :
    ev <> DoneEvent -> (forall t, ev <> DataEvent t) ->
    Ending [(Write ev, false)]
| ends_data_lost text m :
    truthy text = true ->
    Ending [(Write (DataEvent text), false); (Write (ErrorEvent m), false)].

(** A list of attempts in which the sentinel is asked for at most once, no
    write takes effect after it, the close is asked for at most once, and
    nothing at all is asked for after a close that took effect. *)
Definition well_terminated (tr : list (WriterOp * bool)) : Prop :=
  length (List.filter is_done tr) <= 1
  /\ List.filter wrote (after is_done tr) = []
  /\ length (List.filter is_close_attempt tr) <= 1
  /\ after closed_ok tr = [].

(** A write that was asked for, whether or not it took effect. *)
Definition asked_write (a : WriterOp * bool) : bool := negb (is_close (fst a)).

(** A write whose bytes are those of the sentinel. *)
Definition sentinel_frame (a : WriterOp * bool) : bool :=
  match fst a with
  | Write e => String.eqb (frame e) (frame DoneEvent)
  | Close => false
  end.

(** A list of attempts with at most one sentinel, no write asked for after
    it, and at most one close asked for; [sentinel] tells which attempts
    count as the sentinel (the event of the completion paths, or any write
    with its bytes). *)
Definition ends_once (sentinel : WriterOp * bool -> bool)
    (tr : list (WriterOp * bool)) : Prop :=
  length (List.filter sentinel tr) <= 1
  /\ List.filter asked_write (after sentinel tr) = []
  /\ length (List.filter is_close_attempt tr) <= 1.

(** *** The two route handlers *)

(** What a route handler does: answer with JSON, or hand over to
    [handleChatStream] with the two values. *)
Inductive Route (V : Type) :=
| Reply (status : Z) (error : string)
| CallHandleChatStream (message threadId : V).
Arguments Reply {V}.
Arguments CallHandleChatStream {V}.

Definition REQUIRED : string := "Message and threadId are required".

Record GetRequest := mkGetRequest {
  q_message : option string;      (* searchParams.get('message') *)
  q_threadId : option string      (* searchParams.get('threadId') *)
}.

Definition GET (request : GetRequest) : Route string :=
  match q_message request, q_threadId request with
  | Some message, Some threadId =>
      if negb (truthy message) || negb (truthy threadId)
      then Reply 400 REQUIRED
      else CallHandleChatStream message threadId
  | _, _ => Reply 400 REQUIRED
  end.

(** JSON values, as produced by [request.json()]. *)
#[local] Set Warnings "-register-all".
Inductive JsValue :=
| JNull
| JBool (b : bool)
| JNum (n : Z)
| JStr (s : string)
| JArr (items : list JsValue)
| JObj (fields : list (string * JsValue)).

(** Property read [body.name]: throws on [null]; [None] stands for
    [undefined]. In a parsed object the last entry of a repeated key wins. *)
Fixpoint lookup_field (name : string) (fields : list (string * JsValue)) : option JsValue :=
  match fields with
  | [] => None
  | (k, v) :: rest =>
      match lookup_field name rest with
      | Some v' => Some v'
      | None => if String.eqb k name then Some v else None
      end
  end.

Definition get_property (body : JsValue) (name : string) : Res (option JsValue) :=
  match body with
  | JNull => inl (ErrorObj "Cannot read properties of null")
  | JObj fields => inr (lookup_field name fields)
  | _ => inr None
  end.

Definition value_truthy (v : option JsValue) : bool :=
  match v with
  | None => false
  | Some JNull => false
  | Some (JBool b) => b
  | Some (JNum n) => negb (n =? 0)%Z
  | Some (JStr s) => truthy s
  | Some (JArr _) => true
  | Some (JObj _) => true
  end.

(** [body] is the outcome of [await request.json()], which rejects when the
    request body is not JSON. *)
Definition POST (body : Res JsValue) : Route (option JsValue) :=
  match body with
  | inl _ => Reply 500 "Internal server error"
  | inr b =>
      match get_property b "message", get_property b "threadId" with
      | inr message, inr threadId =>
          if negb (value_truthy message) || negb (value_truthy threadId)
          then Reply 400 REQUIRED
          else CallHandleChatStream message threadId
      | _, _ => Reply 500 "Internal server error"
      end
  end.

(** A query parameter or body field that is missing or empty. *)
Definition missing_or_empty_param (x : option string) : Prop :=
  x = None \/ x = Some EmptyString.

Definition missing_or_empty (v : option JsValue) : Prop :=
  v = None \/ v = Some (JStr EmptyString).

(** The field [name] of a request body: present only in a parsed object. *)
Definition field_of (body : Res JsValue) (name : string) : option JsValue :=
  match body with
  | inr (JObj fields) => lookup_field name fields
  | _ => None
  end.

(** An environment whose graph is ready and streams [response_]. *)
Definition env_streaming (response_ : Generation) : Env Graph :=
  mkEnv Graph "6fd1c6a2" 1700000000000 (inr (mkGraph (fun _ _ => inr response_))).

(** An item of structured content that contributes no text. *)
Definition blank_item (item : ContentItem) : Prop :=
  match item with
  | ItemString s => s = EmptyString
  | ItemComplex (TextItem text) => text = EmptyString
  | ItemComplex (ImageUrlItem _) => False
  | ItemComplex OtherTypedItem => True
  | ItemComplex UntypedItem => True
  end.

(** The event that closes a run which the client follows to its end: an
    error event when the iterator throws before any message of another kind,
    the sentinel otherwise. *)
Fixpoint final_event (response_ : Generation) : Event :=
  match response_ with
  | GenEnd => DoneEvent
  | GenThrow error => ErrorEvent (error_message error)
  | GenYield (AIMessageChunk _) rest => final_event rest
  | GenYield NonAIMessage _ => DoneEvent
  end.

(** Content that has no text to send. *)
Definition blank_content (content : MessageContent) : Prop :=
  match content with
  | ContentString s => s = EmptyString
  | ContentArray items => Forall blank_item items
  | ContentOther _ => True
  end.

(** A [GET] request served to the end. *)
Definition serve_GET (env : Env Graph) (stringify_error : string -> string)
    (transport_ : option nat) (failure_ : JsError)
    (request : GetRequest) (activeThreads : gmap string Z) : Outcome :=
  match GET request with
  | Reply status error => mkOutcome activeThreads (Some (JsonResponse status error)) []
  | CallHandleChatStream message threadId =>
      handleChatStream env stringify_error transport_ failure_ message threadId activeThreads
  end.

End Gateway.

(** ** The chat view while an answer streams in ([handleSubmit], [cleanMessage]) *)

Module Client.
Import JsString.
Export Reconstructor.

(** A literal at the start of the text, letters compared without regard to
    case (the [i] flag); the rest of the text when it is there. *)
Fixpoint strip_ci (literal s : string) : option string :=
  match literal with
  | EmptyString => Some s
  | String a literal' =>
      match s with
      | EmptyString => None
      | String b s' =>
          if Ascii.eqb (Responder.lowerChar a) (Responder.lowerChar b)
          then strip_ci literal' s' else None
      end
  end.

(** An optional literal: taken when present. *)
Definition optional_ci (literal s : string) : string :=
  match strip_ci literal s with
  | Some rest => rest
  | None => s
  end.

(** The end of both patterns: blanks, an optional "here", an optional colon,
    blanks. Every part is optional and greedy, so the match is the one that
    takes each part that is there. *)
Definition advisor_tail (s : string) : string :=
  trimStart (optional_ci ":" (optional_ci "here" (trimStart s))).

(** The first pattern, anchored at the start and case-insensitive: "YC",
    blanks, "Advisor", then the common end. The result is what is left of the
    text behind the match, if the pattern matches. *)
Definition match_yc_advisor (s : string) : option string :=
  match strip_ci "YC" s with
  | Some r1 =>
      match strip_ci "Advisor" (trimStart r1) with
      | Some r2 => Some (advisor_tail r2)
      | None => None
      end
  | None => None
  end.

(** The second pattern: "Your", blanks, then as the first. *)
Definition match_your_yc_advisor (s : string) : option string :=
  match strip_ci "Your" s with
  | Some r0 => match_yc_advisor (trimStart r0)
  | None => None
  end.

(** [s.replace(regex, '')] for a pattern anchored at the start. *)
Definition remove_match (pattern : string -> option string) (s : string) : string :=
  match pattern s with
  | Some rest => rest
  | None => s
  end.

Definition cleanMessage (content_ : string) : string :=
  trim (remove_match match_your_yc_advisor (remove_match match_yc_advisor content_)).

(** The state of the chat view that the stream handlers touch, with the
    local [assistantMessage] of [handleSubmit] and whether the event source
    is still open. *)
Record Chat := mkChat {
  messages : list Message;
  assistantMessage : string;
  isLoading : bool;
  source_open : bool
}.

Definition FAILED : string := "Sorry, there was an error processing your request.".

(** [[...prev.slice(0, -1), m]] *)
Definition replace_last (prev : list Message) (m : Message) : list Message :=
  removelast prev ++ [m].

(** [handleSubmit] up to the registration of the listeners; nothing happens
    without a signed-in user. *)
Definition handleSubmit (user_id : option string) (content_ : string) (st : Chat) : Chat :=
  match user_id with
  | None => st
  | Some uid =>
      if negb (truthy uid) then st
      else mkChat (messages st ++ [mkMessage user content_; mkMessage assistant EmptyString])
                  EmptyString true true
  end.

(** [processIncomingMessage] *)
Definition processIncomingMessage (content_ : string) (prev : list Message) : list Message :=
  let cleanedMessage := cleanMessage content_ in
  if truthy (trim cleanedMessage)
  then replace_last prev (mkMessage assistant cleanedMessage)
  else prev.

(** The listener for [message] events, given [event.data]. *)
Definition on_message (data : string) (st : Chat) : Chat :=
  if String.eqb data "[DONE]" then
    mkChat (messages st) (assistantMessage st) false false
  else if truthy data then
    let acc := assistantMessage st +:+ data in
    mkChat (processIncomingMessage acc (messages st)) acc (isLoading st) (source_open st)
  else st.

(** The listener for [error] events. *)
Definition on_error (st : Chat) : Chat :=
  mkChat (replace_last (messages st) (mkMessage assistant FAILED))
         (assistantMessage st) false false.

(** An event source that has been closed dispatches nothing. *)
Definition deliver (st : Chat) (data : string) : Chat :=
  if source_open st then on_message data st else st.

(** The texts received, put together. *)
Fixpoint concat_texts (l : list string) : string :=
  match l with
  | [] => EmptyString
  | x :: r => x +:+ concat_texts r
  end.

End Client.

(** * Properties *)

(** ** Summary projector *)

Section SummaryFacts.
Import JsString Summary.

Lemma step_keeps_discussions f sec :
  startsWith label_discussions sec = false ->
  discussions (step f sec) = discussions f.
Proof.
  intros H. unfold step. rewrite H.
  destruct (startsWith label_lastTask sec); [reflexivity|].
  destruct (startsWith label_context sec); reflexivity.
Qed.

Lemma step_keeps_lastTask f sec :
  startsWith label_lastTask sec = false ->
  lastTask (step f sec) = lastTask f.
Proof.
  intros H. unfold step. rewrite H.
  destruct (startsWith label_discussions sec); [reflexivity|].
  destruct (startsWith label_context sec); reflexivity.
Qed.

Lemma step_keeps_context f sec :
  startsWith label_context sec = false ->
  context (step f sec) = context f.
Proof.
  intros H. unfold step. rewrite H.
  destruct (startsWith label_discussions sec); [reflexivity|].
  destruct (startsWith label_lastTask sec); reflexivity.
Qed.

(** A bucket is only ever written by a section carrying its label. *)
Lemma fold_keeps (proj : FormattedSummary -> list string) (label : string) :
  (forall f sec, startsWith label sec = false -> proj (step f sec) = proj f) ->
  forall secs f,
    Forall (fun sec => startsWith label sec = false) secs ->
    proj (fold_left step secs f) = proj f.
Proof.
  intros Hstep secs. induction secs as [|sec secs IH]; intros f Hall.
  - reflexivity.
  - inversion Hall as [|? ? Hsec Hrest]; subst. simpl.
    rewrite IH by assumption. now apply Hstep.
Qed.

(** C9. [parseSummary] maps "Discussions till now:\n- A\n- B" to discussions
    [A; B] with the two other buckets empty; and for every text, a bucket whose
    labelled section is absent comes out as the empty list ([parseSummary] is a
    total function, so no input raises an error). *)
Theorem parseSummary_example_and_absent_sections :
  parseSummary ("Discussions till now:" +:+ LF +:+ "- A" +:+ LF +:+ "- B")
    = mkFormatted ["A"; "B"] [] []
  /\ forall summary : string,
       (absent label_discussions summary -> discussions (parseSummary summary) = [])
       /\ (absent label_lastTask summary -> lastTask (parseSummary summary) = [])
       /\ (absent label_context summary -> context (parseSummary summary) = []).
Proof.
  split; [reflexivity|].
  intros summary. unfold absent, parseSummary. cbv zeta.
  repeat split; intros H.
  - now rewrite (fold_keeps discussions label_discussions step_keeps_discussions).
  - now rewrite (fold_keeps lastTask label_lastTask step_keeps_lastTask).
  - now rewrite (fold_keeps context label_context step_keeps_context).
Qed.

(** The absent-section half at a text that only has a task section. *)
Lemma parseSummary_absent_witness :
  let summary := "Last task or action item assigned:" +:+ LF +:+ "- ship it" in
  absent label_discussions summary
  /\ discussions (parseSummary summary) = []
  /\ lastTask (parseSummary summary) = ["ship it"].
Proof.
  assert (Ha : absent label_discussions
                 ("Last task or action item assigned:" +:+ LF +:+ "- ship it")).
  { unfold absent. vm_compute. repeat constructor. }
  split; [exact Ha|]. split.
  - exact (proj1 (proj2 parseSummary_example_and_absent_sections _) Ha).
  - reflexivity.
Defined.

End SummaryFacts.

(** ** Checkpoint reconstructor *)

Section ReconstructorFacts.
Import JsString Reconstructor.

Lemma role_eqb_eq a b : role_eqb a b = true <-> a = b.
Proof. destruct a, b; simpl; split; congruence. Qed.

Lemma same_message_spec a b :
  same_message a b = true <-> role a = role b /\ content a = content b.
Proof.
  unfold same_message. rewrite andb_true_iff, role_eqb_eq, String.eqb_eq. tauto.
Qed.

Lemma same_message_eq a b : same_message a b = true -> a = b.
Proof.
  rewrite same_message_spec. destruct a, b; simpl. intros [-> ->]. reflexivity.
Qed.

(** The indexed filter, started in the middle of the array, is the scan that
    remembers the previous input element. *)
Lemma filter_indexed_scan_after l :
  forall pre p,
    filter_indexed (not_repeat (pre ++ p :: l)) (S (length pre)) l = scan_after p l.
Proof.
  induction l as [|m r IH]; intros pre p; [reflexivity|].
  cbn [filter_indexed scan_after not_repeat].
  assert (Hnth : nth_error (pre ++ p :: m :: r) (length pre) = Some p).
  { rewrite nth_error_app2 by lia. now rewrite Nat.sub_diag. }
  rewrite Hnth.
  specialize (IH (pre ++ [p]) m).
  rewrite <- app_assoc in IH. cbn [app] in IH.
  rewrite length_app in IH. cbn [length] in IH.
  replace (length pre + 1) with (S (length pre)) in IH by lia.
  destruct (same_message p m); cbn [negb]; now rewrite IH.
Qed.

Lemma drop_repeats_scan l : drop_repeats l = scan l.
Proof.
  destruct l as [|m r]; [reflexivity|].
  unfold drop_repeats. cbn [filter_indexed not_repeat scan].
  f_equal. exact (filter_indexed_scan_after r [] m).
Qed.

Lemma scan_after_differs l :
  forall p, Sorted differs (scan_after p l) /\ HdRel differs p (scan_after p l).
Proof.
  induction l as [|m r IH]; intros p; cbn [scan_after].
  - split; constructor.
  - destruct (same_message p m) eqn:E.
    + apply same_message_eq in E. subst m. apply IH.
    + destruct (IH m) as [Hs Hh]. split; constructor; assumption.
Qed.

Lemma scan_differs l : Sorted differs (scan l).
Proof.
  destruct l as [|m r]; [constructor|].
  cbn [scan]. destruct (scan_after_differs r m). now constructor.
Qed.

Lemma differs_adjacent l : Sorted differs l -> adjacent_distinct l.
Proof.
  induction 1 as [|a l Hs IH Hh]; intros i x y Hx Hy.
  - destruct i; discriminate.
  - destruct i as [|i].
    + cbn in Hx, Hy. injection Hx as <-.
      destruct l as [|b l']; [discriminate|]. cbn in Hy. injection Hy as <-.
      inversion Hh as [|? ? Hab]; subst. unfold differs in Hab.
      intros Hsame. apply same_message_spec in Hsame. congruence.
    + cbn in Hx. apply (IH i x y); assumption.
Qed.

Lemma adjacent_differs l : adjacent_distinct l -> Sorted differs l.
Proof.
  induction l as [|a l IH]; intros H; [constructor|].
  constructor.
  - apply IH. intros i x y Hx Hy. apply (H (S i) x y); assumption.
  - destruct l as [|b l']; constructor.
    unfold differs. destruct (same_message a b) eqn:E; [|reflexivity].
    exfalso. apply (H 0 a b); [reflexivity..|]. now apply same_message_spec.
Qed.

Lemma scan_after_fixed l :
  forall p, HdRel differs p l -> Sorted differs l -> scan_after p l = l.
Proof.
  induction l as [|m r IH]; intros p Hh Hs; [reflexivity|].
  cbn [scan_after]. inversion Hh as [|? ? Hpm]; subst. unfold differs in Hpm.
  rewrite Hpm. f_equal. inversion Hs; subst. now apply IH.
Qed.

Lemma scan_fixed l : Sorted differs l -> scan l = l.
Proof.
  destruct l as [|m r]; [reflexivity|]. intros Hs. inversion Hs; subst.
  cbn [scan]. f_equal. now apply scan_after_fixed.
Qed.

(** A message that differs from the one before it is kept, and the scan
    starts afresh from it. *)
Lemma scan_after_split before :
  forall x p m rest,
    same_message p m = false ->
    scan_after x (before ++ p :: m :: rest)
    = scan_after x (before ++ [p]) ++ m :: scan_after m rest.
Proof.
  induction before as [|b before IH]; intros x p m rest Hpm; cbn [app scan_after].
  - rewrite Hpm. now destruct (same_message x p).
  - rewrite (IH b p m rest Hpm). now destruct (same_message x b).
Qed.

(** A message equal to the one before it is dropped, and nothing else
    changes. *)
Lemma scan_after_repeat before :
  forall x p m rest,
    same_message p m = true ->
    scan_after x (before ++ p :: m :: rest) = scan_after x (before ++ p :: rest).
Proof.
  induction before as [|b before IH]; intros x p m rest Hpm; cbn [app scan_after].
  - rewrite Hpm. apply same_message_eq in Hpm. now subst m.
  - now rewrite (IH b p m rest Hpm).
Qed.

Lemma drop_repeats_split before p m rest :
  same_message p m = false ->
  drop_repeats (before ++ p :: m :: rest)
  = drop_repeats (before ++ [p]) ++ drop_repeats (m :: rest).
Proof.
  intros Hpm. rewrite !drop_repeats_scan.
  destruct before as [|b before]; cbn [app scan scan_after].
  - now rewrite Hpm.
  - now rewrite (scan_after_split before b p m rest Hpm).
Qed.

Lemma drop_repeats_repeat before p m rest :
  same_message p m = true ->
  drop_repeats (before ++ p :: m :: rest) = drop_repeats (before ++ p :: rest).
Proof.
  intros Hpm. rewrite !drop_repeats_scan.
  destruct before as [|b before]; cbn [app scan scan_after].
  - rewrite Hpm. apply same_message_eq in Hpm. now subst m.
  - now rewrite (scan_after_repeat before b p m rest Hpm).
Qed.

Lemma drop_repeats_head m rest : hd_error (drop_repeats (m :: rest)) = Some m.
Proof. now rewrite drop_repeats_scan. Qed.

(** C7. The message list produced by [loadMessages] never has two neighbours
    with the same role and the same content, and exactly the repeats of an
    immediate predecessor are removed. With [parsed] the parsed messages in
    step order: the result is the left-to-right scan of [parsed] that drops a
    message when it equals the one just before it; wherever two neighbours
    [p], [m] of [parsed] are equal, [m] is dropped and nothing else changes;
    wherever they differ, [m] is kept and what follows is treated as if the
    list started at [m], whatever came before [p] (so an earlier copy of [m]
    that is not its neighbour does not remove it); and when [parsed] has no
    equal neighbours at all, all of it is kept. *)
Theorem loadMessages_adjacent_distinct (checkpoints : list CheckpointMetadata) :
  let parsed := parse_all (js_sort by_step checkpoints) in
  adjacent_distinct (loadMessages checkpoints)
  /\ loadMessages checkpoints = scan parsed
  /\ (forall before p m rest,
        parsed = before ++ p :: m :: rest ->
        (role p = role m /\ content p = content m ->
         loadMessages checkpoints = drop_repeats (before ++ p :: rest))
        /\ (~ (role p = role m /\ content p = content m) ->
            loadMessages checkpoints
            = drop_repeats (before ++ [p]) ++ drop_repeats (m :: rest)
            /\ hd_error (drop_repeats (m :: rest)) = Some m))
  /\ (adjacent_distinct parsed -> loadMessages checkpoints = parsed).
Proof.
  cbv zeta. unfold loadMessages. split; [|split; [|split]].
  - rewrite drop_repeats_scan. apply differs_adjacent, scan_differs.
  - apply drop_repeats_scan.
  - intros before p m rest ->. split.
    + intros Hsame. apply drop_repeats_repeat. now apply same_message_spec.
    + intros Hdiff. split; [|apply drop_repeats_head].
      apply drop_repeats_split.
      destruct (same_message p m) eqn:E; [|reflexivity].
      exfalso. apply Hdiff. now apply same_message_spec.
  - intros H. rewrite drop_repeats_scan. now apply scan_fixed, adjacent_differs.
Qed.

(** Five checkpoints out of order: the answer was recorded three times in a
    row and the user says the same thing at the start and at the end. The
    two repeats of the answer are dropped; the last message, equal to the
    first but not next to it, is kept. *)
Lemma loadMessages_adjacent_distinct_witness :
  let cps := [checkpoint 4 "loop" "ycKnowledge" "YCVectorKnowledge" "hello";
              checkpoint 2 "loop" "ycKnowledge" "YCVectorKnowledge" "hello";
              checkpoint 5 "loop" "human" "user" "hi";
              checkpoint 1 "input" "__start__" "user" "hi";
              checkpoint 3 "loop" "ycKnowledge" "YCVectorKnowledge" "hello"] in
  parse_all (js_sort by_step cps)
  = [mkMessage user "hi"; mkMessage assistant "hello"; mkMessage assistant "hello";
     mkMessage assistant "hello"; mkMessage user "hi"]
  /\ loadMessages cps
     = [mkMessage user "hi"; mkMessage assistant "hello"; mkMessage user "hi"]
  /\ loadMessages cps
     = drop_repeats [mkMessage user "hi"; mkMessage assistant "hello";
                     mkMessage assistant "hello"; mkMessage assistant "hello"]
       ++ drop_repeats [mkMessage user "hi"].
Proof.
  cbv zeta.
  match goal with
  | |- _ /\ loadMessages ?cps = _ /\ _ =>
      destruct (loadMessages_adjacent_distinct cps) as (_ & Hscan & Hat & _)
  end.
  split; [reflexivity|]. split.
  - rewrite Hscan. reflexivity.
  - refine (proj1 (proj2 (Hat [mkMessage user "hi"; mkMessage assistant "hello";
                              mkMessage assistant "hello"]
                             (mkMessage assistant "hello") (mkMessage user "hi") []
                             eq_refl) _)).
    cbn. intros [H _]. discriminate.
Defined.

(** A repeated step (same role, same text) is collapsed to one message. *)
Example loadMessages_collapses_neighbours :
  loadMessages [checkpoint 1 "input" "__start__" "user" "hi";
                checkpoint 2 "loop" "ycKnowledge" "YCVectorKnowledge" "hello";
                checkpoint 3 "loop" "ycKnowledge" "YCVectorKnowledge" "hello";
                checkpoint 4 "loop" "ycKnowledge" "YCVectorKnowledge" "hello";
                checkpoint 5 "loop" "human" "user" "hi"]
  = [mkMessage user "hi"; mkMessage assistant "hello"; mkMessage user "hi"].
Proof. reflexivity. Qed.

(** *** Order by step *)

Lemma sort_insert_perm {A} (cmp : A -> A -> Z) x l :
  sort_insert cmp x l ≡ₚ x :: l.
Proof.
  induction l as [|y r IH]; cbn [sort_insert]; [reflexivity|].
  destruct (cmp x y <=? 0)%Z; [reflexivity|].
  rewrite IH. apply perm_swap.
Qed.

Lemma js_sort_perm {A} (cmp : A -> A -> Z) l : js_sort cmp l ≡ₚ l.
Proof.
  induction l as [|x r IH]; cbn [js_sort]; [reflexivity|].
  rewrite sort_insert_perm. now rewrite IH.
Qed.

Lemma sort_insert_sorted x l :
  StronglySorted step_le l -> StronglySorted step_le (sort_insert by_step x l).
Proof.
  induction 1 as [|y r Hs IH Hy]; cbn [sort_insert].
  - repeat constructor.
  - unfold by_step. destruct (Z.leb_spec (step x - step y) 0) as [Hle|Hgt].
    + constructor; [now constructor|].
      constructor; [unfold step_le; lia|].
      eapply Forall_impl; [exact Hy|]. unfold step_le. intros z Hz. lia.
    + constructor; [exact IH|].
      rewrite (sort_insert_perm by_step x r).
      constructor; [unfold step_le; lia | exact Hy].
Qed.

Lemma js_sort_sorted l : StronglySorted step_le (js_sort by_step l).
Proof.
  induction l as [|x r IH]; cbn [js_sort]; [constructor|].
  now apply sort_insert_sorted.
Qed.

Lemma sublist_sorted {A} (R : A -> A -> Prop) (l1 l2 : list A) :
  l1 `sublist_of` l2 -> StronglySorted R l2 -> StronglySorted R l1.
Proof.
  induction 1 as [|x l1 l2 Hsub IH|x l1 l2 Hsub IH]; intros Hs.
  - constructor.
  - inversion Hs as [|? ? Hs' Hall]; subst. constructor; [now apply IH|].
    rewrite Forall_forall in Hall |- *. intros y Hy. apply Hall.
    now apply (sublist_subseteq _ _ Hsub).
  - inversion Hs; subst. now apply IH.
Qed.

Lemma filter_indexed_sublist {A} (f : A -> nat -> bool) l :
  forall i, filter_indexed f i l `sublist_of` l.
Proof.
  induction l as [|x r IH]; intros i; cbn [filter_indexed]; [constructor|].
  destruct (f x i); [apply sublist_skip | apply sublist_cons]; apply IH.
Qed.

Lemma parse_all_traced_origin l :
  map fst (parse_all_traced l) `sublist_of` l
  /\ Forall (fun p => parseCheckpointMetadata (fst p) = Some (snd p)) (parse_all_traced l)
  /\ map snd (parse_all_traced l) = parse_all l.
Proof.
  induction l as [|c r (Hsub & Hall & Hmap)]; cbn [parse_all_traced parse_all].
  - repeat split; constructor.
  - destruct (parseCheckpointMetadata c) eqn:E; cbn [map fst snd].
    + repeat split; [now apply sublist_skip | now constructor | now f_equal].
    + repeat split; [now apply sublist_cons | assumption | assumption].
Qed.

Lemma filter_indexed_map_snd {A B} (f : B -> nat -> bool) (l : list (A * B)) :
  forall i,
    map snd (filter_indexed (fun p index => f (snd p) index) i l)
    = filter_indexed f i (map snd l).
Proof.
  induction l as [|x r IH]; intros i; cbn [filter_indexed map]; [reflexivity|].
  destruct (f (snd x) i); cbn [map]; now rewrite IH.
Qed.

Lemma loadMessages_traced_messages cps :
  map snd (loadMessages_traced cps) = loadMessages cps.
Proof.
  unfold loadMessages_traced, loadMessages, drop_repeats. cbv zeta.
  rewrite filter_indexed_map_snd.
  now rewrite (proj2 (proj2 (parse_all_traced_origin _))).
Qed.

Lemma step_determines (cps : list CheckpointMetadata) :
  NoDup (map step cps) ->
  forall a b, a ∈ cps -> b ∈ cps -> step a = step b -> a = b.
Proof.
  induction cps as [|c r IH]; intros Hnd a b Ha Hb Hab.
  - inversion Ha.
  - cbn [map] in Hnd. apply NoDup_cons in Hnd as [Hc Hr].
    apply elem_of_cons in Ha as [->|Ha]; apply elem_of_cons in Hb as [->|Hb].
    + reflexivity.
    + exfalso. apply Hc. rewrite Hab. now apply (list_elem_of_fmap_2 step).
    + exfalso. apply Hc. rewrite <- Hab. now apply (list_elem_of_fmap_2 step).
    + now apply IH.
Qed.

(** With pairwise distinct steps the sorted array, hence the whole result,
    does not depend on the order in which the store returns the rows. *)
Lemma js_sort_order_irrelevant (cps cps' : list CheckpointMetadata) :
  cps' ≡ₚ cps -> NoDup (map step cps) ->
  js_sort by_step cps' = js_sort by_step cps.
Proof.
  intros Hp Hnd.
  apply (StronglySorted_unique_strong step_le); try apply js_sort_sorted.
  - intros a b Ha Hb Hab Hba. unfold step_le in *.
    apply (step_determines cps Hnd).
    + rewrite js_sort_perm, Hp in Ha. exact Ha.
    + rewrite js_sort_perm in Hb. exact Hb.
    + lia.
  - now rewrite !js_sort_perm.
Qed.

Lemma sorted_steps l :
  StronglySorted step_le l -> StronglySorted Z.le (map step l).
Proof.
  induction 1 as [|x r Hs IH Hx]; cbn [map]; constructor; [exact IH|].
  apply Forall_forall. intros z Hz. apply list_elem_of_fmap in Hz as (c & -> & Hc).
  rewrite Forall_forall in Hx. now apply Hx.
Qed.

Lemma loadMessages_traced_sublist cps :
  loadMessages_traced cps `sublist_of` parse_all_traced (js_sort by_step cps).
Proof. unfold loadMessages_traced. cbv zeta. apply filter_indexed_sublist. Qed.

Lemma loadMessages_traced_origins cps :
  map fst (loadMessages_traced cps) `sublist_of` js_sort by_step cps.
Proof.
  transitivity (map fst (parse_all_traced (js_sort by_step cps))).
  - apply (fmap_sublist fst), loadMessages_traced_sublist.
  - apply parse_all_traced_origin.
Qed.

(** C8. Pair every output message with the checkpoint it was parsed from
    ([loadMessages_traced], whose messages are exactly the output): each pair
    is a supplied checkpoint with its parse, and the steps of these
    checkpoints are ascending along the output, for every list of checkpoints
    and so for every order of supply. When the steps are pairwise distinct,
    any reordering of the supplied rows gives the very same messages. *)
Theorem loadMessages_ascending_steps (checkpoints : list CheckpointMetadata) :
  map snd (loadMessages_traced checkpoints) = loadMessages checkpoints
  /\ Forall (fun p => fst p ∈ checkpoints
                      /\ parseCheckpointMetadata (fst p) = Some (snd p))
            (loadMessages_traced checkpoints)
  /\ StronglySorted Z.le (map (fun p => step (fst p)) (loadMessages_traced checkpoints))
  /\ forall supplied : list CheckpointMetadata,
       supplied ≡ₚ checkpoints ->
       NoDup (map step checkpoints) ->
       loadMessages supplied = loadMessages checkpoints.
Proof.
  split; [apply loadMessages_traced_messages|].
  split; [|split].
  - apply Forall_forall. intros p Hp. split.
    + assert (Hin : fst p ∈ map fst (loadMessages_traced checkpoints))
        by now apply (list_elem_of_fmap_2 fst).
      apply (sublist_subseteq _ _ (loadMessages_traced_origins checkpoints)) in Hin.
      now rewrite js_sort_perm in Hin.
    + apply (sublist_subseteq _ _ (loadMessages_traced_sublist checkpoints)) in Hp.
      destruct (parse_all_traced_origin (js_sort by_step checkpoints)) as (_ & Hall & _).
      rewrite Forall_forall in Hall. now apply Hall.
  - rewrite <- (map_map fst step). apply sorted_steps.
    eapply sublist_sorted; [apply loadMessages_traced_origins | apply js_sort_sorted].
  - intros supplied Hp Hnd. unfold loadMessages.
    now rewrite (js_sort_order_irrelevant checkpoints supplied Hp Hnd).
Qed.

(** The store returns three rows out of order; the output follows the steps,
    and supplying the rows in another order changes nothing. *)
Lemma loadMessages_ascending_steps_witness :
  let stored := [checkpoint 3 "loop" "human" "user" "ok";
                 checkpoint 1 "input" "__start__" "user" "hi";
                 checkpoint 2 "loop" "ycKnowledge" "YCVectorKnowledge" "hello"] in
  map (fun p => step (fst p)) (loadMessages_traced stored) = [1; 2; 3]%Z
  /\ loadMessages (rev stored) = loadMessages stored
  /\ loadMessages stored
     = [mkMessage user "hi"; mkMessage assistant "hello"; mkMessage user "ok"].
Proof.
  cbv zeta. split; [reflexivity|]. split; [|reflexivity].
  refine (proj2 (proj2 (proj2 (loadMessages_ascending_steps _))) _ _ _).
  - symmetry. apply Permutation_rev.
  - vm_compute. repeat constructor; rewrite ?elem_of_cons, ?elem_of_nil;
      intros H; repeat destruct H as [H|H]; try discriminate H; exact H.
Defined.

End ReconstructorFacts.

(** ** Session registry *)

Section RegistryFacts.
Import JsString Registry.

Lemma truthy_nonempty (s : string) : s <> EmptyString -> truthy s = true.
Proof. destruct s; [congruence | reflexivity]. Qed.

(** A live id is returned as it is, and its timestamp is not refreshed. *)
Lemma createOrGetConversation_tracked {G} (env : Env G) (id : string) (ts : Z)
    (activeThreads : gmap string Z) (g : G) :
  id <> EmptyString -> activeThreads !! id = Some ts -> initializeGraph env = inr g ->
  createOrGetConversation env (Some id) activeThreads
  = (activeThreads, inr (mkConversation g id)).
Proof.
  intros Hid Hlive Hg. unfold createOrGetConversation, tracked.
  rewrite (truthy_nonempty id Hid), Hlive, Hg.
  rewrite bool_decide_eq_true_2 by eauto. reflexivity.
Qed.

(** The sweep keeps exactly the ids touched within the last 24 hours. *)
Lemma sweep_lookup (now_ : Z) (activeThreads : gmap string Z) (id : string) (ts : Z) :
  sweep now_ activeThreads !! id = Some ts
  <-> activeThreads !! id = Some ts /\ (now_ - ts <= 24 * 60 * 60 * 1000)%Z.
Proof.
  unfold sweep. rewrite map_lookup_filter_Some. cbn [snd]. split.
  - intros [H1 H2]. split; [exact H1 | lia].
  - intros [H1 H2]. split; [exact H1 | lia].
Qed.

(** C2, as stated, fails: an id that is supplied but not tracked is not
    replaced by a minted one. With ["t1"] supplied to an empty registry the
    call resolves to ["t1"] itself, so "every untracked supplied id resolves to
    an id distinct from it" is false. *)
Lemma createOrGetConversation_untracked_counterexample :
  ~ (forall (env : Env unit) (supplied : string) (activeThreads : gmap string Z),
       activeThreads !! supplied = None ->
       initializeGraph env = inr tt ->
       exists id, resolved_id (createOrGetConversation env (Some supplied) activeThreads)
                  = Some id /\ id <> supplied).
Proof.
  intros claim.
  destruct (claim (mkEnv unit "minted" 1000 (inr tt)) "t1" ∅)
    as (id & Hid & Hne); [reflexivity..|].
  vm_compute in Hid. congruence.
Qed.

(** C2, amended. When no id is supplied (or the empty string is), the id is
    the one minted by [uuidv4]; when a non-empty id is supplied that is not
    tracked, the id is the supplied one. In both cases the id is recorded with
    the current time, other entries are untouched, and the call resolves to
    that id once the graph is available. *)
Theorem createOrGetConversation_untracked {G} (env : Env G)
    (existing : option string) (activeThreads : gmap string Z) :
  ((existing = None \/ existing = Some EmptyString) ->
     fst (createOrGetConversation env existing activeThreads)
       = <[uuidv4 env := now env]> activeThreads
     /\ forall g, initializeGraph env = inr g ->
          snd (createOrGetConversation env existing activeThreads)
            = inr (mkConversation g (uuidv4 env)))
  /\ (forall supplied,
        existing = Some supplied -> supplied <> EmptyString ->
        activeThreads !! supplied = None ->
        fst (createOrGetConversation env existing activeThreads)
          = <[supplied := now env]> activeThreads
        /\ fst (createOrGetConversation env existing activeThreads) !! supplied
             = Some (now env)
        /\ forall g, initializeGraph env = inr g ->
             snd (createOrGetConversation env existing activeThreads)
               = inr (mkConversation g supplied)).
Proof.
  split.
  - intros [-> | ->]; (split; [reflexivity|]); intros g Hg;
      unfold createOrGetConversation; cbn; now rewrite Hg.
  - intros supplied -> Hne Hnone.
    unfold createOrGetConversation, tracked, or_fresh.
    rewrite (truthy_nonempty supplied Hne), Hnone.
    rewrite bool_decide_eq_false_2 by (intros [? ?]; discriminate).
    cbn [andb fst snd]. split; [reflexivity|]. split.
    + apply lookup_insert_eq.
    + intros g Hg. now rewrite Hg.
Qed.

(** Both cases on an empty registry. *)
Lemma createOrGetConversation_untracked_witness :
  let env := mkEnv unit "minted" 1000 (inr tt) in
  createOrGetConversation env None ∅
    = ({["minted" := 1000%Z]}, inr (mkConversation tt "minted"))
  /\ fst (createOrGetConversation env (Some "t1") ∅) !! "t1" = Some 1000%Z
  /\ snd (createOrGetConversation env (Some "t1") ∅) = inr (mkConversation tt "t1").
Proof.
  cbv zeta.
  pose proof (createOrGetConversation_untracked
                (mkEnv unit "minted" 1000 (inr tt)) None ∅) as [Habsent _].
  pose proof (createOrGetConversation_untracked
                (mkEnv unit "minted" 1000 (inr tt)) (Some "t1") ∅) as [_ Hsupplied].
  destruct (Habsent (or_introl eq_refl)) as [Hfst Hsnd].
  destruct (Hsupplied "t1" eq_refl ltac:(discriminate) ltac:(reflexivity))
    as (_ & Hlook & Hres).
  split; [|split].
  - rewrite (surjective_pairing (createOrGetConversation _ None ∅)).
    rewrite Hfst, (Hsnd tt eq_refl). reflexivity.
  - exact Hlook.
  - exact (Hres tt eq_refl).
Defined.

End RegistryFacts.

(** ** Retrieval-augmented responder *)

Section ResponderFacts.
Import JsString Responder.

Ltac run :=
  unfold invoke, try_body, search_in_parallel, bind, started, lift, ret, throw.

(** C4. Whatever step throws (embedding, index query, formatting of the
    matches, prompt rendering, completion), [invoke] does not throw: it returns
    the apology as answer, and the history gains the pair (query, apology).
    [invoke] returns an update for every input, there being no other way out
    of the [catch] block. *)
Theorem invoke_catches_every_failure {Vec Score Structured : Type}
    (svc : Services Vec Score Structured) (state : GraphState) (log : list Call) :
  StepThrows svc state ->
  snd (invoke svc state log) = apology_update state
  /\ u_answer (snd (invoke svc state log)) = APOLOGY
  /\ reduce_history state (snd (invoke svc state log))
     = chat_history state ++ [HumanMessage (input state); AIMessage APOLOGY].
Proof.
  intros Hthrows.
  assert (H : snd (invoke svc state log) = apology_update state).
  { destruct Hthrows as
      [e He | v e Hv He | v e Hv He
       | ms e (v & v' & results & Hv & Hq & Hv' & Hms & Hne) He
       | ms fr e (v & v' & results & Hv & Hq & Hv' & Hms & Hne) Hfr He
       | ms fr prompt e (v & v' & results & Hv & Hq & Hv' & Hms & Hne) Hfr Hp He].
    - run. now rewrite He.
    - run. rewrite Hv. cbn. now rewrite He.
    - run. rewrite Hv. cbn. rewrite He.
      now destruct (indexQuery svc v 2 (classify (input state))).
    - run. rewrite Hv. cbn. rewrite Hq, Hv'. cbn. rewrite Hms.
      destruct ms as [|m ms']; [congruence|]. now rewrite He.
    - run. rewrite Hv. cbn. rewrite Hq, Hv'. cbn. rewrite Hms.
      destruct ms as [|m ms']; [congruence|]. rewrite Hfr.
      unfold rendered in He. now rewrite He.
    - run. rewrite Hv. cbn. rewrite Hq, Hv'. cbn. rewrite Hms.
      destruct ms as [|m ms']; [congruence|]. rewrite Hfr.
      unfold rendered in Hp. rewrite Hp. cbn. now rewrite He. }
  rewrite H. repeat split.
Qed.

(** The completion service is down. *)
Lemma invoke_catches_every_failure_witness :
  let svc := services_with (fun _ => inr tt) (Some [a_company])
                           (inl (ErrorObj "overloaded")) in
  let state := mkGraphState "what does Rippling do" [] in
  StepThrows svc state
  /\ invoke svc state []
     = ([CallEmbed "what does Rippling do"; CallQuery 2 "company";
         CallEmbed "what does Rippling do";
         CallLlm "what does Rippling do [...]"],
        apology_update state).
Proof.
  cbv zeta.
  match goal with |- ?P /\ _ => assert (Hs : P) end.
  { eapply (throws_completion _ _ [a_company]); try reflexivity.
    exists tt, tt, (mkSearchResults (Some [a_company])).
    repeat split; discriminate. }
  split; [exact Hs|].
  match goal with |- invoke ?svc ?st ?log = _ =>
    rewrite (surjective_pairing (invoke svc st log));
    rewrite (proj1 (invoke_catches_every_failure svc st log Hs)) end.
  reflexivity.
Defined.

(** The predicate [StepThrows] covers every way the [try] block can throw. *)
Lemma try_body_throws {Vec Score Structured : Type}
    (svc : Services Vec Score Structured) (state : GraphState) (log : list Call) e :
  snd (try_body svc state log) = inl e -> StepThrows svc state.
Proof.
  run.
  destruct (embedQuery svc 0 (input state)) as [e0|v] eqn:Hv; cbn.
  { intros _. eapply throws_embedding; eauto. }
  destruct (indexQuery svc v 2 (classify (input state))) as [e1|results] eqn:Hq; cbn.
  { intros _. eapply throws_query; eauto. }
  destruct (embedQuery svc 1 (input state)) as [e2|v'] eqn:Hv'; cbn.
  { intros _. eapply throws_second_embedding; eauto. }
  destruct (matches results) as [[|m ms]|] eqn:Hms; cbn -[formatAll]; try discriminate.
  assert (Hr : retrieved svc state (m :: ms)).
  { exists v, v', results. repeat split; try assumption. discriminate. }
  destruct (formatAll svc (m :: ms)) as [e3|fr] eqn:Hfr.
  { intros _. eapply throws_formatting; eauto. }
  destruct (rendered svc state fr) as [e4|prompt] eqn:Hp;
    pose proof Hp as Hp'; unfold rendered in Hp'; rewrite Hp'.
  { intros _. eapply throws_prompt; eauto. }
  cbn. destruct (llmInvoke svc prompt) as [e5|content] eqn:Hl.
  { intros _. eapply throws_completion; eauto. }
  discriminate.
Qed.

(** Retrieval returns [results] exactly when the embedding of the query, the
    index query and the embedding requested next to it all succeed, the index
    answering [results]. *)
Lemma retrieval_returns {Vec Score Structured : Type}
    (svc : Services Vec Score Structured) (state : GraphState)
    (results : SearchResults Score) :
  retrieval svc state = inr results
  <-> exists v v',
        embedQuery svc 0 (input state) = inr v
        /\ indexQuery svc v 2 (classify (input state)) = inr results
        /\ embedQuery svc 1 (input state) = inr v'.
Proof.
  unfold retrieval, search_in_parallel, bind, started, ret, throw.
  destruct (embedQuery svc 0 (input state)) as [e|v]; cbn.
  - split; [discriminate | intros (? & ? & ? & _); discriminate].
  - split.
    + destruct (indexQuery svc v 2 (classify (input state))) as [e1|r] eqn:Hq;
        destruct (embedQuery svc 1 (input state)) as [e2|v'] eqn:Hv';
        cbn; try discriminate.
      intros H. injection H as <-. exists v, v'. now rewrite Hq.
    + intros (v0 & v' & H0 & Hq & Hv'). injection H0 as <-.
      now rewrite Hq, Hv'.
Qed.

(** C3. Whenever retrieval returns zero matches (the awaited search resolved
    and its [matches] are missing or empty), [invoke] returns exactly the
    fixed answer "No matching results found in the database.", the history
    gains the pair (query, that answer), and the completion service is not
    called: the calls of the turn are the embedding request, the index query
    and the embedding request started next to it, so any completion call in
    the log was there before the turn. *)
Theorem invoke_no_matches {Vec Score Structured : Type}
    (svc : Services Vec Score Structured) (state : GraphState) (log : list Call)
    (results : SearchResults Score) :
  retrieval svc state = inr results ->
  zero_matches results ->
  invoke svc state log = (log ++ retrieval_calls (input state), no_results_update state)
  /\ u_answer (snd (invoke svc state log)) = "No matching results found in the database."
  /\ reduce_history state (snd (invoke svc state log))
     = chat_history state
       ++ [HumanMessage (input state);
           AIMessage "No matching results found in the database."]
  /\ u_context (snd (invoke svc state log)) = EmptyString
  /\ (forall prompt,
        In (CallLlm prompt) (fst (invoke svc state log)) -> In (CallLlm prompt) log).
Proof.
  intros Hret Hzero.
  apply retrieval_returns in Hret as (v & v' & Hv & Hq & Hv').
  assert (H : invoke svc state log
              = (log ++ retrieval_calls (input state), no_results_update state)).
  { run. rewrite Hv. cbn. rewrite Hq, Hv'. cbn.
    unfold retrieval_calls, no_results_update.
    destruct Hzero as [-> | ->]; cbn; now rewrite <- !app_assoc. }
  rewrite H. cbn [fst snd]. repeat split.
  intros prompt Hin. apply in_app_or in Hin as [Hin|Hin]; [exact Hin|].
  unfold retrieval_calls in Hin. cbn in Hin.
  destruct Hin as [Hin|[Hin|[Hin|[]]]]; discriminate.
Qed.

(** Nothing in the index for this query. *)
Lemma invoke_no_matches_witness :
  let svc := services_with (fun _ => inr tt) (Some []) (inr (TextContent "unused")) in
  let state := mkGraphState "my application" [HumanMessage "hi"; AIMessage "hello"] in
  retrieval svc state = inr (mkSearchResults (Some []))
  /\ invoke svc state []
     = ([CallEmbed "my application"; CallQuery 2 "application"; CallEmbed "my application"],
        no_results_update state)
  /\ reduce_history state (snd (invoke svc state []))
     = [HumanMessage "hi"; AIMessage "hello";
        HumanMessage "my application";
        AIMessage "No matching results found in the database."].
Proof.
  cbv zeta.
  pose proof (invoke_no_matches
    (services_with (fun _ => inr tt) (Some []) (inr (TextContent "unused")))
    (mkGraphState "my application" [HumanMessage "hi"; AIMessage "hello"]) []
    (mkSearchResults (Some [])) eq_refl (or_intror eq_refl))
    as (Hrun & _ & Hhist & _).
  split; [reflexivity|]. split; [exact Hrun | exact Hhist].
Defined.

(** When the embedding request started next to the index query is rejected,
    the awaited search rejects whatever the index answered: no search result
    is returned, the zero-match test is not reached, and the turn ends in the
    [catch] block as any retrieval failure does. *)
Example invoke_search_rejected :
  let svc := services_with (fun n => match n with
                                     | O => inr tt
                                     | S _ => inl (ErrorObj "rate limited")
                                     end)
                           (Some []) (inr (TextContent "unused")) in
  let state := mkGraphState "hello" [] in
  retrieval svc state = inl (ErrorObj "rate limited")
  /\ StepThrows svc state
  /\ snd (invoke svc state []) = apology_update state.
Proof.
  cbv zeta. split; [reflexivity|]. split; [|reflexivity].
  now apply (throws_second_embedding _ _ tt (ErrorObj "rate limited")).
Qed.

End ResponderFacts.

(** ** Streaming gateway *)

Section GatewayFacts.
Import JsString Gateway.

(** *** The writer *)

Lemma finish_with_open ev att tr f :
  finish_with ev (mkGState (mkWriter att true tr f) false)
  = match tr with
    | Some O =>
        (mkGState (mkWriter (att ++ [(Write ev, false)]) true (Some O) f) false, inl f)
    | Some (S O) =>
        (mkGState (mkWriter ((att ++ [(Write ev, true)]) ++ [(Close, false)])
                            true (Some O) f) false, inl f)
    | Some (S (S n)) =>
        (mkGState (mkWriter ((att ++ [(Write ev, true)]) ++ [(Close, true)])
                            false (Some n) f) true, inr tt)
    | None =>
        (mkGState (mkWriter ((att ++ [(Write ev, true)]) ++ [(Close, true)])
                            false None f) true, inr tt)
    end.
Proof. destruct tr as [[|[|n]]|]; reflexivity. Qed.

Lemma data_ok_snoc texts t :
  data_ok texts ++ [(Write (DataEvent t), true)] = data_ok (texts ++ [t]).
Proof. unfold data_ok. now rewrite map_app. Qed.

Ltac shape :=
  match goal with
  | |- _ = data_ok (?texts ++ []) ++ _ => rewrite (app_nil_r texts)
  end;
  rewrite <- ?app_assoc; reflexivity.

Ltac ending :=
  first [ apply ends_done | apply ends_done_unclosed | apply ends_done_lost
        | apply ends_error; [discriminate | intros ?; discriminate]
        | apply ends_error_unclosed; [discriminate | intros ?; discriminate]
        | apply ends_error_lost; [discriminate | intros ?; discriminate]
        | apply ends_data_lost; assumption ].

Lemma fragment_texts_yield content rest :
  fragment_texts (GenYield (AIMessageChunk content) rest)
  = if truthy (contentToSend content)
    then contentToSend content :: fragment_texts rest
    else fragment_texts rest.
Proof. reflexivity. Qed.

Ltac leaf :=
  eexists [], _;
  split; [cbn -[data_ok]; shape|];
  split; [cbn [app]; ending|];
  split; [apply prefix_nil|];
  intros Hnone; first [discriminate Hnone | split; [repeat constructor | reflexivity]].

(** Every run of the detached function leaves on the writer the data events
    that took effect, followed by one of the endings; the data events asked
    for are the texts of the fragments, in order, up to the point where the
    stream ended; and when the client stays, every operation takes effect and
    every fragment with a text got its event. *)
Lemma stream_task_shape response_ :
  forall texts tr f,
  exists texts' tail,
    attempts (writer (fst (stream_task response_
                             (mkGState (mkWriter (data_ok texts) true tr f) false))))
    = data_ok (texts ++ texts') ++ tail
    /\ Ending tail
    /\ (texts' ++ data_texts tail) `prefix_of` fragment_texts response_
    /\ (tr = None ->
        Forall (fun a => snd a = true) tail /\ texts' = fragment_texts response_).
Proof.
  induction response_ as [|error|message rest IH]; intros texts tr f.
  - destruct tr as [[|[|n]]|]; leaf.
  - destruct tr as [[|[|n]]|]; leaf.
  - destruct message as [content|].
    + rewrite fragment_texts_yield.
      destruct (truthy (contentToSend content)) eqn:Htext.
      * destruct tr as [[|n]|].
        -- eexists [], _.
           split; [unfold stream_task, gbind, after_loop, on_error;
                   cbn -[data_ok contentToSend truthy]; rewrite Htext;
                   cbn -[data_ok contentToSend truthy]; shape|].
           split; [cbn [app]; ending|].
           split; [apply prefix_cons, prefix_nil | discriminate].
        -- destruct (IH (texts ++ [contentToSend content]) (Some n) f)
             as (texts' & tail & Hshape & Hend & Hpre & _).
           exists (contentToSend content :: texts'), tail.
           split; [|split; [exact Hend | split; [now apply prefix_cons | discriminate]]].
           replace (texts ++ contentToSend content :: texts')
             with ((texts ++ [contentToSend content]) ++ texts')
             by now rewrite <- app_assoc.
           rewrite <- Hshape, <- data_ok_snoc.
           unfold stream_task, gbind. cbn -[data_ok contentToSend truthy after_loop on_error].
           rewrite Htext. reflexivity.
        -- destruct (IH (texts ++ [contentToSend content]) None f)
             as (texts' & tail & Hshape & Hend & Hpre & Hnone).
           exists (contentToSend content :: texts'), tail.
           split; [|split; [exact Hend | split; [now apply prefix_cons|]]].
           2:{ intros _. destruct (Hnone eq_refl) as [Hok ->]. now split. }
           replace (texts ++ contentToSend content :: texts')
             with ((texts ++ [contentToSend content]) ++ texts')
             by now rewrite <- app_assoc.
           rewrite <- Hshape, <- data_ok_snoc.
           unfold stream_task, gbind. cbn -[data_ok contentToSend truthy after_loop on_error].
           rewrite Htext. reflexivity.
      * destruct (IH texts tr f) as (texts' & tail & Hshape & Hend & Hpre & Hnone).
        exists texts', tail. split; [|repeat split; try assumption; now apply Hnone].
        rewrite <- Hshape.
        unfold stream_task, gbind. cbn -[data_ok contentToSend truthy after_loop on_error].
        rewrite Htext. reflexivity.
    + destruct tr as [[|[|n]]|]; leaf.
Qed.

(** *** Reading the attempts of a run *)

Lemma data_prefix_skipped (p : WriterOp * bool -> bool) texts tail :
  (forall t, p (Write (DataEvent t), true) = false) ->
  List.filter p (data_ok texts ++ tail) = List.filter p tail
  /\ after p (data_ok texts ++ tail) = after p tail.
Proof.
  intros Hp. induction texts as [|t r [IHf IHa]]; [split; reflexivity|].
  change (data_ok (t :: r) ++ tail)
    with ((Write (DataEvent t), true) :: (data_ok r ++ tail)).
  cbn [List.filter after]. rewrite (Hp t). split; assumption.
Qed.

Lemma data_texts_app texts tail :
  data_texts (data_ok texts ++ tail) = texts ++ data_texts tail.
Proof.
  induction texts as [|t r IH]; [reflexivity|].
  change (data_ok (t :: r) ++ tail)
    with ((Write (DataEvent t), true) :: (data_ok r ++ tail)).
  cbn [data_texts app]. now rewrite IH.
Qed.

Lemma ending_well_terminated texts tail :
  Ending tail -> well_terminated (data_ok texts ++ tail).
Proof.
  intros Hend. unfold well_terminated.
  rewrite !(proj1 (data_prefix_skipped _ texts tail (fun _ => eq_refl))).
  rewrite !(proj2 (data_prefix_skipped _ texts tail (fun _ => eq_refl))).
  destruct Hend as [|m|m|ev Hd Ht|ev Hd Ht|ev Hd Ht|text m Htext];
    try (cbn; repeat split; lia);
    destruct ev; try congruence; try (now exfalso; eapply Ht);
    cbn; repeat split; lia.
Qed.

Lemma ending_data_texts tail :
  Ending tail ->
  Forall (fun t => truthy t = true) (data_texts tail)
  /\ (Forall (fun a => snd a = true) tail -> data_texts tail = []).
Proof.
  intros Hend.
  destruct Hend as [|m|m|ev Hd Ht|ev Hd Ht|ev Hd Ht|text m Htext].
  1-3: split; [constructor | reflexivity].
  1-3: destruct ev; try congruence; try (now exfalso; eapply Ht);
       (split; [constructor | reflexivity]).
  split; [repeat constructor; exact Htext|].
  intros Hok. inversion Hok as [|? ? Hfalse]. discriminate Hfalse.
Qed.

Lemma fragment_texts_truthy response_ :
  Forall (fun t => truthy t = true) (fragment_texts response_).
Proof.
  unfold fragment_texts. apply Forall_forall. intros t Ht.
  apply list_elem_of_In, filter_In in Ht. tauto.
Qed.

(** The attempts of any call of the handler: data events that took effect,
    then an ending. When the client stays, either every operation of the
    ending takes effect or the ending is the one write of the outer [catch]
    block, which nobody reads. *)
Lemma handleChatStream_shape env stringify_error tr f message threadId activeThreads :
  exists texts tail,
    wire (handleChatStream env stringify_error tr f message threadId activeThreads)
    = data_ok texts ++ tail
    /\ Ending tail
    /\ Forall (fun t => truthy t = true) (texts ++ data_texts tail)
    /\ (tr = None ->
        Forall (fun a => snd a = true) tail
        \/ exists ev, ev <> DoneEvent /\ tail = [(Write ev, false)]).
Proof.
  assert (Hapi : forall error threads_,
            exists texts tail,
              wire (api_error stringify_error error threads_ (new_writer tr f))
              = data_ok texts ++ tail
              /\ Ending tail
              /\ Forall (fun t => truthy t = true) (texts ++ data_texts tail)
              /\ (tr = None ->
                  Forall (fun a => snd a = true) tail
                  \/ exists ev, ev <> DoneEvent /\ tail = [(Write ev, false)])).
  { intros error threads_. exists []. eexists.
    split; [reflexivity | split; [ending | split; [constructor|]]].
    intros _. right. eexists. split; [|reflexivity]. discriminate. }
  unfold handleChatStream.
  destruct (createOrGetConversation env (Some threadId) activeThreads)
    as [threads_ [error|conv]]; [apply Hapi|].
  destruct (stream (graph conv) message (thread_id conv)) as [error|response_];
    [apply Hapi|].
  destruct (stream_task_shape response_ [] tr f) as (texts & tail & Hs & He & Hp & Hn).
  exists texts, tail. unfold new_writer.
  change (@nil (WriterOp * bool)) with (data_ok []).
  destruct (stream_task response_ _) as [st' r] eqn:Hrun.
  cbn [wire]. cbn [fst] in Hs. rewrite Hs. cbn [app].
  split; [reflexivity | split; [exact He | split; [|intros H; left; now apply Hn]]].
  destruct Hp as [k Hk].
  pose proof (fragment_texts_truthy response_) as Hall.
  rewrite Hk in Hall. now apply Forall_app in Hall as [Hall _].
Qed.

(** The stream is opened with [response_] when the graph is available and
    [graph.stream] returns it. *)
Lemma handleChatStream_opened env stringify_error tr f message threadId
    activeThreads g response_ :
  threadId <> EmptyString ->
  initializeGraph env = inr g ->
  stream g message threadId = inr response_ ->
  wire (handleChatStream env stringify_error tr f message threadId activeThreads)
  = run_stream tr f response_
  /\ reply (handleChatStream env stringify_error tr f message threadId activeThreads)
     = Some EventStream.
Proof.
  intros Hid Hg Hstream.
  unfold handleChatStream, createOrGetConversation, tracked, or_fresh, run_stream.
  rewrite (truthy_nonempty threadId Hid), Hg.
  destruct (true && bool_decide (is_Some (activeThreads !! threadId)));
    cbn -[stream_task new_writer]; rewrite Hstream;
    destruct (stream_task response_ (new_writer tr f)); split; reflexivity.
Qed.

(** The endings in which no write is asked for after the sentinel: all but
    the two in which the sentinel or the close after it is rejected. *)
Lemma ending_ends_once texts tail :
  Ending tail ->
  In (Close, true) tail
  \/ Forall (fun a => snd a = true) tail
  \/ (exists ev, ev <> DoneEvent /\ tail = [(Write ev, false)]) ->
  ends_once is_done (data_ok texts ++ tail).
Proof.
  intros Hend Hc. unfold ends_once.
  rewrite !(proj1 (data_prefix_skipped _ texts tail (fun _ => eq_refl))).
  rewrite !(proj2 (data_prefix_skipped _ texts tail (fun _ => eq_refl))).
  destruct Hend as [|m|m|ev Hd Ht|ev Hd Ht|ev Hd Ht|text m Htext].
  - cbn. repeat split; lia.
  - exfalso. destruct Hc as [Hin|[Hok|(ev & _ & Heq)]].
    + cbn in Hin. destruct Hin as [H|[H|[H|[]]]]; discriminate H.
    + inversion Hok as [|? ? _ Hok']; subst.
      inversion Hok' as [|? ? Hfalse _]; subst. discriminate Hfalse.
    + discriminate Heq.
  - exfalso. destruct Hc as [Hin|[Hok|(ev & _ & Heq)]].
    + cbn in Hin. destruct Hin as [H|[H|[]]]; discriminate H.
    + inversion Hok as [|? ? Hfalse _]; subst. discriminate Hfalse.
    + discriminate Heq.
  - destruct ev; try congruence; try (now exfalso; eapply Ht); cbn; repeat split; lia.
  - destruct ev; try congruence; try (now exfalso; eapply Ht); cbn; repeat split; lia.
  - destruct ev; try congruence; try (now exfalso; eapply Ht); cbn; repeat split; lia.
  - cbn. repeat split; lia.
Qed.

Lemma length_sapp (a b : string) :
  String.length (a +:+ b) = String.length a + String.length b.
Proof.
  induction a as [|x a IH]; [reflexivity|].
  change (String x a +:+ b) with (String x (a +:+ b)).
  cbn [String.length]. now rewrite IH.
Qed.

Lemma sapp_inv_tail (c : string) :
  forall a b, a +:+ c = b +:+ c -> a = b.
Proof.
  induction a as [|x a IH]; intros [|y b] H.
  - reflexivity.
  - exfalso. apply (f_equal String.length) in H.
    change (EmptyString +:+ c) with c in H. rewrite length_sapp in H.
    cbn [String.length] in H. lia.
  - exfalso. apply (f_equal String.length) in H.
    change (EmptyString +:+ c) with c in H. rewrite length_sapp in H.
    cbn [String.length] in H. lia.
  - change (String x (a +:+ c) = String y (b +:+ c)) in H.
    injection H as Hxy H. subst y. f_equal. now apply IH.
Qed.

(** The bytes of the sentinel are written for the sentinel itself, and
    otherwise only for a fragment, or a serialised error, whose text is that
    of the sentinel. *)
Lemma sentinel_frame_events e ok :
  sentinel_frame (Write e, ok) = true ->
  e = DoneEvent \/ e = DataEvent "[DONE]" \/ e = JsonErrorEvent "[DONE]".
Proof.
  unfold sentinel_frame. cbn [fst]. rewrite String.eqb_eq.
  destruct e as [text| |errorMessage|json]; unfold frame; intros H.
  - right. left. f_equal.
    change ("data: " +:+ text +:+ NL2) with
      (String "d" (String "a" (String "t" (String "a" (String ":" (String " "
         (text +:+ NL2))))))) in H.
    change ("data: [DONE]" +:+ NL2) with
      (String "d" (String "a" (String "t" (String "a" (String ":" (String " "
         ("[DONE]" +:+ NL2))))))) in H.
    injection H as H. now apply sapp_inv_tail in H.
  - now left.
  - exfalso.
    change ("data: Error: " +:+ errorMessage +:+ NL2) with
      (String "d" (String "a" (String "t" (String "a" (String ":" (String " "
         (String "E" ("rror: " +:+ errorMessage +:+ NL2)))))))) in H.
    change ("data: [DONE]" +:+ NL2) with
      (String "d" (String "a" (String "t" (String "a" (String ":" (String " "
         (String "[" ("DONE]" +:+ NL2)))))))) in H.
    discriminate H.
  - right. right. f_equal.
    change ("data: " +:+ json +:+ NL2) with
      (String "d" (String "a" (String "t" (String "a" (String ":" (String " "
         (json +:+ NL2))))))) in H.
    change ("data: [DONE]" +:+ NL2) with
      (String "d" (String "a" (String "t" (String "a" (String ":" (String " "
         ("[DONE]" +:+ NL2))))))) in H.
    injection H as H. now apply sapp_inv_tail in H.
Qed.

Lemma sentinel_frame_is_done (tr : list (WriterOp * bool)) :
  Forall (fun a => fst a <> Write (DataEvent "[DONE]")
                   /\ fst a <> Write (JsonErrorEvent "[DONE]")) tr ->
  List.filter sentinel_frame tr = List.filter is_done tr
  /\ after sentinel_frame tr = after is_done tr.
Proof.
  induction 1 as [|a r [Hdata Hjson] _ [IHf IHa]]; [split; reflexivity|].
  assert (Heq : sentinel_frame a = is_done a).
  { destruct a as [[e|] ok]; [|reflexivity]. cbn [fst] in Hdata, Hjson.
    destruct (sentinel_frame (Write e, ok)) eqn:E.
    - apply sentinel_frame_events in E as [-> | [-> | ->]];
        [reflexivity | now exfalso | now exfalso].
    - destruct e; try reflexivity. discriminate E. }
  cbn [List.filter after]. rewrite Heq, IHf, IHa. now split.
Qed.




(** The client leaves right after the sentinel: the close and the error event
    of the [catch] block are asked for, and neither takes effect. *)
Example handleChatStream_client_leaves :
  wire (handleChatStream (env_streaming (GenYield (AIMessageChunk (ContentString "Hi")) GenEnd))
                         id (Some 2) (ErrorObj "aborted") "hi" "t1" ∅)
  = [(Write (DataEvent "Hi"), true); (Write DoneEvent, true);
     (Close, false); (Write (ErrorEvent "aborted"), false)].
Proof. reflexivity. Qed.

(** The framing does not tell the sentinel from a fragment whose text is the
    sentinel's. *)
Example frame_of_sentinel :
  frame DoneEvent = "data: [DONE]" +:+ NL2
  /\ frame (DataEvent "[DONE]") = frame DoneEvent.
Proof. split; reflexivity. Qed.

(** The conversation cannot be set up: the outer [catch] block asks for one
    write, which nobody reads, and the handler does not settle. *)
Example handleChatStream_setup_fails :
  let out := handleChatStream (mkEnv Graph "u" 0 (inl (ErrorObj "no database")))
                              id None (ErrorObj "aborted") "hi" "t1" ∅ in
  wire out = [(Write (JsonErrorEvent "no database"), false)]
  /\ reply out = None.
Proof. split; reflexivity. Qed.

(** *** What a data event carries *)

(** C1, as stated, fails: with the fragments "Hel" and "lo" the second data
    event carries "lo", not the answer so far "Hello". *)
Lemma handleChatStream_cumulative_counterexample :
  ~ (forall response_ : Generation,
       data_texts (wire (handleChatStream (env_streaming response_) id None
                                          (ErrorObj "aborted") "hi" "t1" ∅))
       = spec_cumulative EmptyString (fragment_texts response_)).
Proof.
  intros claim.
  specialize (claim (GenYield (AIMessageChunk (ContentString "Hel"))
                       (GenYield (AIMessageChunk (ContentString "lo")) GenEnd))).
  vm_compute in claim. discriminate claim.
Qed.

(** C1, amended. For every turn whose stream is opened, the data events are
    the texts of the fragments themselves, one event per fragment that has a
    text, in generation order: each event carries that fragment's own text and
    nothing of the earlier ones. When the client leaves early the events are
    a prefix of these. *)
Theorem handleChatStream_sends_fragment_texts
    (env : Env Graph) (stringify_error : string -> string) (f : JsError)
    (message threadId : string) (activeThreads : gmap string Z)
    (g : Graph) (response_ : Generation) :
  threadId <> EmptyString ->
  initializeGraph env = inr g ->
  stream g message threadId = inr response_ ->
  data_texts (wire (handleChatStream env stringify_error None f
                                     message threadId activeThreads))
  = fragment_texts response_
  /\ forall tr,
       data_texts (wire (handleChatStream env stringify_error tr f
                                          message threadId activeThreads))
       `prefix_of` fragment_texts response_.
Proof.
  intros Hid Hg Hstream.
  assert (Hwire : forall tr,
            wire (handleChatStream env stringify_error tr f message threadId activeThreads)
            = run_stream tr f response_)
    by (intros tr; now apply (handleChatStream_opened env _ tr f _ _ _ g)).
  split.
  - rewrite Hwire. unfold run_stream, new_writer.
    destruct (stream_task_shape response_ [] None f) as (texts & tail & Hs & He & _ & Hn).
    change (data_ok []) with (@nil (WriterOp * bool)) in Hs. rewrite Hs.
    destruct (Hn eq_refl) as [Hok ->]. cbn [app].
    rewrite data_texts_app, (proj2 (ending_data_texts tail He) Hok).
    apply app_nil_r.
  - intros tr. rewrite Hwire. unfold run_stream, new_writer.
    destruct (stream_task_shape response_ [] tr f) as (texts & tail & Hs & _ & Hp & _).
    change (data_ok []) with (@nil (WriterOp * bool)) in Hs. rewrite Hs.
    cbn [app]. now rewrite data_texts_app.
Qed.

(** Two fragments with text around one without. *)
Lemma handleChatStream_sends_fragment_texts_witness :
  let response_ :=
    GenYield (AIMessageChunk (ContentString "Hel"))
      (GenYield (AIMessageChunk (ContentArray []))
         (GenYield (AIMessageChunk (ContentString "lo")) GenEnd)) in
  fragment_texts response_ = ["Hel"; "lo"]
  /\ data_texts (wire (handleChatStream (env_streaming response_) id None
                                        (ErrorObj "aborted") "hi" "t1" ∅))
     = ["Hel"; "lo"].
Proof.
  cbv zeta. split; [reflexivity|].
  match goal with
  | |- data_texts (wire (handleChatStream (env_streaming ?r) ?s None ?f ?m ?i ?a)) = _ =>
      rewrite (proj1 (handleChatStream_sends_fragment_texts
                        (env_streaming r) s f m i a
                        (mkGraph (fun _ _ => inr r)) r
                        ltac:(discriminate) eq_refl eq_refl))
  end.
  reflexivity.
Defined.

(** *** Fragments without text *)

Lemma contentToSend_empty content :
  convertMessageContentToString content = EmptyString ->
  contentToSend content = EmptyString.
Proof.
  intros H. unfold contentToSend. rewrite H. now destruct (content_truthy content).
Qed.

Lemma blank_items_convert items :
  Forall blank_item items ->
  convertMessageContentToString (ContentArray items) = EmptyString.
Proof.
  intros Hall. cbn [convertMessageContentToString].
  replace (List.filter truthy _) with (@nil string); [reflexivity|].
  induction Hall as [|item items Hitem _ IH]; [reflexivity|].
  cbn [map List.filter].
  destruct item as [s|[text|url| |]]; cbn in Hitem; subst; try contradiction;
    cbn [handleComplexContent truthy]; exact IH.
Qed.

(** C10. A fragment whose content converts to the empty string leaves the
    writer untouched: the loop goes on with the next message as if the fragment
    had not been there. Such are the empty string, content that is neither a
    string nor an array, and arrays of items without text. And in every call
    of the handler, every data event asked of the writer carries a non-empty
    text. *)
Theorem empty_fragment_emits_nothing :
  (forall (content : MessageContent) (rest : Generation) (st : GState),
     convertMessageContentToString content = EmptyString ->
     isStreamClosed st = false ->
     for_await (GenYield (AIMessageChunk content) rest) st = for_await rest st
     /\ stream_task (GenYield (AIMessageChunk content) rest) st = stream_task rest st)
  /\ (convertMessageContentToString (ContentString EmptyString) = EmptyString
      /\ (forall b, convertMessageContentToString (ContentOther b) = EmptyString)
      /\ (forall items, Forall blank_item items ->
            convertMessageContentToString (ContentArray items) = EmptyString))
  /\ (forall (env : Env Graph) (stringify_error : string -> string)
             (tr : option nat) (f : JsError) (message threadId : string)
             (activeThreads : gmap string Z),
        Forall (fun text => text <> EmptyString)
          (data_texts
             (wire (handleChatStream env stringify_error tr f
                                     message threadId activeThreads)))).
Proof.
  split; [|split].
  - intros content rest st Hempty Hopen.
    apply contentToSend_empty in Hempty.
    assert (Hloop : for_await (GenYield (AIMessageChunk content) rest) st
                    = for_await rest st).
    { cbn [for_await]. rewrite Hopen. cbn [isAIMessageChunk negb].
      now rewrite Hempty. }
    split; [exact Hloop|]. unfold stream_task, gbind. now rewrite Hloop.
  - split; [reflexivity|]. split; [reflexivity|]. apply blank_items_convert.
  - intros env stringify_error tr f message threadId activeThreads.
    destruct (handleChatStream_shape env stringify_error tr f message threadId activeThreads)
      as (texts & tail & -> & _ & Hall & _).
    rewrite data_texts_app. eapply Forall_impl; [exact Hall|].
    intros text Htext ->. discriminate Htext.
Qed.

(** An empty array between two chunks: the run is that of the two chunks. *)
Lemma empty_fragment_emits_nothing_witness :
  let rest := GenYield (AIMessageChunk (ContentString "lo")) GenEnd in
  let st := new_writer None (ErrorObj "aborted") in
  convertMessageContentToString (ContentArray [ItemComplex OtherTypedItem]) = EmptyString
  /\ for_await (GenYield (AIMessageChunk (ContentArray [ItemComplex OtherTypedItem])) rest) st
     = for_await rest st
  /\ attempts (writer (fst (stream_task
       (GenYield (AIMessageChunk (ContentArray [ItemComplex OtherTypedItem])) rest) st)))
     = [(Write (DataEvent "lo"), true); (Write DoneEvent, true); (Close, true)].
Proof.
  cbv zeta.
  pose proof (proj1 empty_fragment_emits_nothing
                (ContentArray [ItemComplex OtherTypedItem])
                (GenYield (AIMessageChunk (ContentString "lo")) GenEnd)
                (new_writer None (ErrorObj "aborted")) eq_refl eq_refl) as [Hloop Htask].
  split; [reflexivity|]. split; [exact Hloop|]. rewrite Htask. reflexivity.
Defined.

(** *** Validation *)

(** C6, as stated, fails for [POST]: a body that is the JSON value [null]
    has no message, and the reply is 500, not 400. *)
Lemma POST_missing_fields_counterexample :
  ~ (forall body : Res JsValue,
       missing_or_empty (field_of body "message")
       \/ missing_or_empty (field_of body "threadId") ->
       POST body = Reply 400 REQUIRED).
Proof.
  intros claim.
  specialize (claim (inr JNull) (or_introl (or_introl eq_refl))).
  discriminate claim.
Qed.

Lemma value_falsy v : missing_or_empty v -> value_truthy v = false.
Proof. intros [-> | ->]; reflexivity. Qed.

(** C6, amended. Every [GET] request, and every [POST] request whose body is
    JSON other than [null], in which the message or the thread id is missing
    or empty is answered with status 400 and the error "Message and threadId
    are required", without [handleChatStream] being called: no stream is
    created, the registry is not touched and no turn is started. A [POST] body
    that is not JSON, or is [null], is answered with status 500 and "Internal
    server error", again without any stream. *)
Theorem missing_fields_rejected :
  (forall (request : GetRequest),
     missing_or_empty_param (q_message request)
     \/ missing_or_empty_param (q_threadId request) ->
     GET request = Reply 400 REQUIRED
     /\ forall env stringify_error tr f activeThreads,
          serve_GET env stringify_error tr f request activeThreads
          = mkOutcome activeThreads (Some (JsonResponse 400 REQUIRED)) [])
  /\ (forall (body : JsValue),
        body <> JNull ->
        missing_or_empty (field_of (inr body) "message")
        \/ missing_or_empty (field_of (inr body) "threadId") ->
        POST (inr body) = Reply 400 REQUIRED)
  /\ POST (inr JNull) = Reply 500 "Internal server error"
  /\ (forall e, POST (inl e) = Reply 500 "Internal server error").
Proof.
  split; [|split; [|split; [reflexivity | reflexivity]]].
  - intros request Hmissing.
    assert (Hget : GET request = Reply 400 REQUIRED).
    { unfold GET.
      destruct Hmissing as [[-> | ->] | [-> | ->]];
        try reflexivity;
        destruct (q_message request) as [m|]; try reflexivity;
        destruct (q_threadId request) as [t|]; try reflexivity;
        cbn; now rewrite ?orb_true_r. }
    split; [exact Hget|]. intros. unfold serve_GET. now rewrite Hget.
  - intros body Hnull Hmissing. unfold POST.
    assert (Hm : get_property body "message" = inr (field_of (inr body) "message"))
      by (destruct body; try reflexivity; congruence).
    assert (Ht : get_property body "threadId" = inr (field_of (inr body) "threadId"))
      by (destruct body; try reflexivity; congruence).
    rewrite Hm, Ht.
    destruct Hmissing as [H | H]; apply value_falsy in H; rewrite H;
      cbn [negb orb]; now rewrite ?orb_true_r.
Qed.

(** A [GET] without thread id and a [POST] without message. *)
Lemma missing_fields_rejected_witness :
  GET (mkGetRequest (Some "hi") None) = Reply 400 REQUIRED
  /\ POST (inr (JObj [("threadId", JStr "t1")])) = Reply 400 REQUIRED
  /\ POST (inr (JObj [("message", JStr ""); ("threadId", JStr "t1")])) = Reply 400 REQUIRED.
Proof.
  destruct missing_fields_rejected as (Hget & Hpost & _).
  split; [|split].
  - exact (proj1 (Hget (mkGetRequest (Some "hi") None) (or_intror (or_introl eq_refl)))).
  - apply Hpost; [discriminate|]. left. left. reflexivity.
  - apply Hpost; [discriminate|]. left. right. reflexivity.
Defined.

(** With both values present the request is handed to [handleChatStream]. *)
Example GET_accepts :
  GET (mkGetRequest (Some "hi") (Some "t1")) = CallHandleChatStream "hi" "t1".
Proof. reflexivity. Qed.

End GatewayFacts.

(** * Further properties of the code *)

(** ** Session registry: repeated calls, the sweep, the graph cache *)

Section RegistryMore.
Import JsString Registry.

(** X1. Once a non-empty id has been resolved it is tracked: resolving it again,
    at any later time and whatever [uuidv4] would give, returns the same id
    and leaves the registry as it is (the timestamp is not refreshed). *)
Theorem createOrGetConversation_twice {G} (env1 env2 : Env G) (id : string)
    (activeThreads : gmap string Z) (g1 g2 : G) :
  id <> EmptyString ->
  initializeGraph env1 = inr g1 ->
  initializeGraph env2 = inr g2 ->
  let first := createOrGetConversation env1 (Some id) activeThreads in
  let second := createOrGetConversation env2 (Some id) (fst first) in
  resolved_id first = Some id
  /\ resolved_id second = Some id
  /\ fst second = fst first
  /\ is_Some (fst first !! id).
Proof.
  intros Hid Hg1 Hg2. cbv zeta.
  assert (Hfirst : resolved_id (createOrGetConversation env1 (Some id) activeThreads) = Some id
                   /\ is_Some (fst (createOrGetConversation env1 (Some id) activeThreads) !! id)).
  { unfold createOrGetConversation, tracked, or_fresh, resolved_id.
    rewrite (truthy_nonempty id Hid), Hg1. cbn [andb].
    destruct (bool_decide (is_Some (activeThreads !! id))) eqn:Hlive; cbn.
    - apply bool_decide_eq_true_1 in Hlive. now split.
    - split; [reflexivity|]. rewrite lookup_insert_eq. eauto. }
  destruct Hfirst as [Hres [ts Hts]].
  split; [exact Hres|].
  rewrite (createOrGetConversation_tracked env2 id ts _ g2 Hid Hts Hg2).
  repeat split; eauto.
Qed.

(** A first visit followed by a second one an hour later. *)
Lemma createOrGetConversation_twice_witness :
  let env1 := mkEnv unit "u-1" 1000 (inr tt) in
  let env2 := mkEnv unit "u-2" 3601000 (inr tt) in
  let first := createOrGetConversation env1 (Some "t1") ∅ in
  let second := createOrGetConversation env2 (Some "t1") (fst first) in
  resolved_id second = Some "t1" /\ fst second !! "t1" = Some 1000%Z.
Proof.
  cbv zeta.
  destruct (createOrGetConversation_twice
              (mkEnv unit "u-1" 1000 (inr tt)) (mkEnv unit "u-2" 3601000 (inr tt))
              "t1" ∅ tt tt ltac:(discriminate) eq_refl eq_refl)
    as (_ & Hsecond & Hsame & _).
  split; [exact Hsecond|]. rewrite Hsame. reflexivity.
Defined.

(** X2. The id is recorded before the graph is awaited: when [initializeGraph]
    rejects, the call rejects with the same error and an untracked id stays
    in the registry all the same; whatever happens, the entries of all other
    ids are left as they were. *)
Theorem createOrGetConversation_records_first {G} (env : Env G)
    (existing : option string) (activeThreads : gmap string Z) :
  let id := or_fresh existing (uuidv4 env) in
  let after := fst (createOrGetConversation env existing activeThreads) in
  (forall other, other <> id -> after !! other = activeThreads !! other)
  /\ (tracked existing activeThreads = false -> after !! id = Some (now env))
  /\ (forall e, initializeGraph env = inl e ->
        snd (createOrGetConversation env existing activeThreads) = inl e).
Proof.
  cbv zeta. unfold createOrGetConversation.
  destruct (tracked existing activeThreads) eqn:Ht; cbn [fst snd].
  - repeat split; [discriminate | intros e ->; reflexivity].
  - split; [|split].
    + intros other Hne. now rewrite lookup_insert_ne.
    + intros _. apply lookup_insert_eq.
    + intros e ->. reflexivity.
Qed.

(** The graph cannot be built: the turn fails, the id is registered. *)
Lemma createOrGetConversation_records_first_witness :
  let env := mkEnv unit "u-1" 1000 (inl (ErrorObj "connect ECONNREFUSED")) in
  fst (createOrGetConversation env (Some "t1") ∅) !! "t1" = Some 1000%Z
  /\ snd (createOrGetConversation env (Some "t1") ∅)
     = inl (ErrorObj "connect ECONNREFUSED").
Proof.
  cbv zeta.
  pose proof (createOrGetConversation_records_first
                (mkEnv unit "u-1" 1000 (inl (ErrorObj "connect ECONNREFUSED")))
                (Some "t1") ∅) as (_ & Hrec & Herr).
  split; [exact (Hrec eq_refl) | exact (Herr _ eq_refl)].
Defined.

(** X3. What a sweep keeps, and how sweeps compose. A sweep at time [t1]
    keeps exactly the entries at most 24 hours old and changes none of them:
    an id is bound to [ts] afterwards if and only if it was bound to [ts]
    before and [t1 - ts] is at most 86 400 000 ms; an entry older than that,
    were it by one millisecond, is gone, and one exactly 24 hours old stays.
    Hence a sweep at a later time makes an earlier one redundant, and
    sweeping twice at the same time changes nothing more. *)
Theorem sweep_composes (t1 t2 : Z) (activeThreads : gmap string Z) :
  (t1 <= t2)%Z ->
  (forall id ts,
     sweep t1 activeThreads !! id = Some ts
     <-> activeThreads !! id = Some ts /\ (t1 - ts <= 86400000)%Z)
  /\ (forall id ts,
        activeThreads !! id = Some ts -> (t1 - ts > 86400000)%Z ->
        sweep t1 activeThreads !! id = None)
  /\ sweep t2 (sweep t1 activeThreads) = sweep t2 activeThreads
  /\ sweep t1 (sweep t1 activeThreads) = sweep t1 activeThreads
  /\ (forall id, activeThreads !! id = Some (t1 - 24 * 60 * 60 * 1000)%Z ->
        sweep t1 activeThreads !! id = Some (t1 - 24 * 60 * 60 * 1000)%Z).
Proof.
  intros Hle. split; [|split; [|split; [|split]]].
  - intros id ts. rewrite sweep_lookup. split; intros [H1 H2]; (split; [exact H1 | lia]).
  - intros id ts Hid Hold.
    destruct (sweep t1 activeThreads !! id) as [ts'|] eqn:E; [|reflexivity].
    apply sweep_lookup in E as [E1 E2]. rewrite Hid in E1. injection E1 as <-. lia.
  - apply map_eq. intros id. apply option_eq. intros ts.
    rewrite !sweep_lookup. split; [tauto | intros [H1 H2]; repeat split; (assumption || lia)].
  - apply map_eq. intros id. apply option_eq. intros ts.
    rewrite !sweep_lookup. tauto.
  - intros id Hid. apply sweep_lookup. split; [exact Hid | lia].
Qed.

(** Two sweeps an hour apart over threads of different ages: at the second
    sweep ["late"] is 24 hours and one millisecond old and goes, ["edge"] is
    24 hours old to the millisecond and stays. *)
Lemma sweep_composes_witness :
  let day := 86400000%Z in
  let hour := 3600000%Z in
  let m : gmap string Z :=
    {["old" := 0%Z; "late" := (hour - 1)%Z; "edge" := hour; "new" := day]} in
  sweep day m !! "old" = Some 0%Z
  /\ sweep (day + hour) m !! "old" = None
  /\ sweep (day + hour) m !! "late" = None
  /\ sweep (day + hour) m !! "edge" = Some hour
  /\ sweep (day + hour) (sweep day m) = sweep (day + hour) m.
Proof.
  cbv zeta.
  pose (m := ({["old" := 0%Z; "late" := (3600000 - 1)%Z; "edge" := 3600000%Z;
               "new" := 86400000%Z]} : gmap string Z)).
  destruct (sweep_composes 86400000 (86400000 + 3600000) m ltac:(lia))
    as (_ & _ & Hcomp & _ & Hedge0).
  destruct (sweep_composes (86400000 + 3600000) (86400000 + 3600000) m ltac:(lia))
    as (Hkeep & Hgone & _ & _ & _).
  split; [exact (Hedge0 "old" eq_refl)|].
  split; [exact (Hgone "old" 0%Z eq_refl ltac:(lia))|].
  split; [exact (Hgone "late" (3600000 - 1)%Z eq_refl ltac:(lia))|].
  split; [apply (proj2 (Hkeep "edge" 3600000%Z)); split; [reflexivity | lia]|].
  exact Hcomp.
Defined.

Lemma createOrGetConversation_fresh_lookup {G} (env : Env G) (id : string)
    (activeThreads : gmap string Z) :
  id <> EmptyString -> activeThreads !! id = None ->
  fst (createOrGetConversation env (Some id) activeThreads) !! id = Some (now env).
Proof.
  intros Hid Hnone. unfold createOrGetConversation, tracked, or_fresh.
  rewrite (truthy_nonempty id Hid), Hnone.
  rewrite bool_decide_eq_false_2 by (intros [? ?]; discriminate).
  cbn [andb fst]. apply lookup_insert_eq.
Qed.

(** X4. Reuse does not extend liveness: a thread registered at [t0] and resolved
    again later is still swept once 24 hours have passed since [t0], however
    recent the last use; resolving it after that registers it anew. *)
Theorem reuse_does_not_extend_liveness {G} (env0 env1 env2 : Env G) (id : string)
    (activeThreads : gmap string Z) (g : G) :
  id <> EmptyString ->
  activeThreads !! id = None ->
  initializeGraph env1 = inr g ->
  (now env2 - now env0 > 24 * 60 * 60 * 1000)%Z ->
  let used := fst (createOrGetConversation env1 (Some id)
                     (fst (createOrGetConversation env0 (Some id) activeThreads))) in
  let swept := sweep (now env2) used in
  used !! id = Some (now env0)
  /\ swept !! id = None
  /\ fst (createOrGetConversation env2 (Some id) swept) !! id = Some (now env2).
Proof.
  intros Hid Hnone Hg1 Hold. cbv zeta.
  pose proof (createOrGetConversation_fresh_lookup env0 id activeThreads Hid Hnone)
    as Hlook.
  rewrite (createOrGetConversation_tracked env1 id (now env0) _ g Hid Hlook Hg1).
  cbn [fst].
  assert (Hswept : sweep (now env2)
                     (fst (createOrGetConversation env0 (Some id) activeThreads)) !! id = None).
  { destruct (sweep _ _ !! id) as [ts|] eqn:E; [|reflexivity].
    apply sweep_lookup in E as [E1 E2]. rewrite Hlook in E1.
    injection E1 as <-. lia. }
  split; [exact Hlook|]. split; [exact Hswept|].
  now apply createOrGetConversation_fresh_lookup.
Qed.

(** Registered at 0, used again after 23 hours, swept after 25. *)
Lemma reuse_does_not_extend_liveness_witness :
  let hour := 3600000%Z in
  let env0 := mkEnv unit "u" 0 (inr tt) in
  let env1 := mkEnv unit "u" (23 * hour) (inr tt) in
  let env2 := mkEnv unit "u" (25 * hour) (inr tt) in
  let used := fst (createOrGetConversation env1 (Some "t1")
                     (fst (createOrGetConversation env0 (Some "t1") ∅))) in
  used !! "t1" = Some 0%Z /\ sweep (25 * hour) used !! "t1" = None.
Proof.
  cbv zeta.
  destruct (reuse_does_not_extend_liveness
              (mkEnv unit "u" 0 (inr tt)) (mkEnv unit "u" (23 * 3600000) (inr tt))
              (mkEnv unit "u" (25 * 3600000) (inr tt)) "t1" ∅ tt
              ltac:(discriminate) eq_refl eq_refl ltac:(cbn; lia))
    as (Hused & Hswept & _).
  split; [exact Hused | exact Hswept].
Defined.



End RegistryMore.

(** ** Checkpoint reconstructor: what gets through and in which order *)

Section ReconstructorMore.
Import JsString Reconstructor.

Lemma parse_content_nonempty c m :
  parseCheckpointMetadata c = Some m -> content m <> EmptyString.
Proof.
  unfold parseCheckpointMetadata.
  destruct (writes c) as [ws|]; [|discriminate].
  destruct ws as [|[key data] ws]; [discriminate|].
  destruct (negb (truthy key)); [discriminate|].
  destruct data as [d|]; [|discriminate].
  destruct (messages d) as [[|md ms]|]; try discriminate.
  destruct (kwargs md) as [kw|]; [|discriminate].
  destruct (kw_content kw) as [text|]; [|discriminate].
  destruct (truthy text) eqn:Ht; cbn [negb]; [|discriminate].
  intros Hm. injection Hm as <-. cbn [content]. intros ->. discriminate Ht.
Qed.

Lemma parse_all_nonempty l :
  Forall (fun m => content m <> EmptyString) (parse_all l).
Proof.
  induction l as [|c r IH]; cbn [parse_all]; [constructor|].
  destruct (parseCheckpointMetadata c) eqn:E; [|exact IH].
  constructor; [now apply (parse_content_nonempty c) | exact IH].
Qed.

Lemma parse_all_length l : length (parse_all l) <= length l.
Proof.
  induction l as [|c r IH]; cbn [parse_all length]; [lia|].
  destruct (parseCheckpointMetadata c); cbn [length]; lia.
Qed.

(** X6. Every message handed to the chat view has a non-empty text, comes from
    a checkpoint of its own (there are at most as many messages as
    checkpoints), and the messages are, in order, among the parsed ones. *)
Theorem loadMessages_well_formed (checkpoints : list CheckpointMetadata) :
  Forall (fun m => content m <> EmptyString) (loadMessages checkpoints)
  /\ length (loadMessages checkpoints) <= length checkpoints
  /\ loadMessages checkpoints `sublist_of` parse_all (js_sort by_step checkpoints).
Proof.
  assert (Hsub : loadMessages checkpoints
                 `sublist_of` parse_all (js_sort by_step checkpoints))
    by apply filter_indexed_sublist.
  split; [|split; [|exact Hsub]].
  - apply Forall_forall. intros m Hm.
    apply (sublist_subseteq _ _ Hsub) in Hm.
    pose proof (parse_all_nonempty (js_sort by_step checkpoints)) as Hall.
    rewrite Forall_forall in Hall. now apply Hall.
  - apply sublist_length in Hsub.
    pose proof (parse_all_length (js_sort by_step checkpoints)) as Hlen.
    pose proof (Permutation_length (js_sort_perm by_step checkpoints)) as Hperm.
    change (@Datatypes.length) with (@length) in *. lia.
Qed.

(** X7. Only the first entry of [writes], and only its first message, is ever
    read. Whatever the first entry is, the entries after it cannot change the
    outcome, nor can the messages after its first one. A checkpoint whose
    first entry is unusable (an empty key, no data, no messages, a first
    message without text) is skipped however good its other entries are;
    there is no falling back to a later entry or message. When the first
    entry is usable the message carries the text of its first message, and
    its role is [user] exactly when the sender is ["user"] or the checkpoint
    is the ["input"] of the ["__start__"] key. *)
Theorem parseCheckpointMetadata_first_only
    (step_ : Z) (source_ key : string) (data : option WriteData)
    (more_entries : list (string * option WriteData)) :
  let parsed :=
    parseCheckpointMetadata
      (mkCheckpoint step_ source_ (Some ((key, data) :: more_entries))) in
  parsed = parseCheckpointMetadata (mkCheckpoint step_ source_ (Some [(key, data)]))
  /\ (key = EmptyString -> parsed = None)
  /\ (data = None -> parsed = None)
  /\ (forall d, data = Some d ->
        (messages d = None \/ messages d = Some []) -> parsed = None)
  /\ (forall d first more_messages,
        data = Some d -> messages d = Some (first :: more_messages) ->
        parsed = parseCheckpointMetadata
                   (mkCheckpoint step_ source_
                      (Some [(key, Some (mkWriteData (sender d) (Some [first])))]))
        /\ (kwargs first = None \/ kwargs first = Some (mkKwargs None)
            \/ kwargs first = Some (mkKwargs (Some EmptyString)) -> parsed = None)
        /\ (forall text,
              key <> EmptyString ->
              kwargs first = Some (mkKwargs (Some text)) -> text <> EmptyString ->
              exists m, parsed = Some m /\ content m = text
                /\ (role m = user
                    <-> sender d = "user"
                        \/ (source_ = "input" /\ key = "__start__"))
                /\ (role m = assistant
                    <-> ~ (sender d = "user"
                           \/ (source_ = "input" /\ key = "__start__"))))).
Proof.
  cbv zeta. unfold parseCheckpointMetadata. cbn [writes source].
  split; [reflexivity|].
  split; [intros ->; reflexivity|].
  split; [intros ->; now destruct (negb (truthy key))|].
  split.
  { intros d -> [Hm|Hm]; rewrite Hm; now destruct (negb (truthy key)). }
  intros d first more_messages -> Hm. rewrite Hm. cbn [messages sender].
  split; [reflexivity|]. split.
  - intros [Hk|[Hk|Hk]]; rewrite Hk; cbn; now destruct (negb (truthy key)).
  - intros text Hkey Hk Htext. rewrite Hk. cbn [kw_content].
    rewrite (truthy_nonempty key Hkey), (truthy_nonempty text Htext). cbn [negb].
    eexists. split; [reflexivity|]. cbn [content role]. split; [reflexivity|].
    assert (Hiff : String.eqb (sender d) "user"
                   || (String.eqb source_ "input" && String.eqb key "__start__") = true
                   <-> sender d = "user" \/ (source_ = "input" /\ key = "__start__")).
    { rewrite orb_true_iff, andb_true_iff, !String.eqb_eq. tauto. }
    destruct (String.eqb (sender d) "user"
              || (String.eqb source_ "input" && String.eqb key "__start__")).
    + pose proof (proj1 Hiff eq_refl) as HP.
      split; split; intros H; try reflexivity; try discriminate; tauto.
    + assert (HP : ~ (sender d = "user" \/ (source_ = "input" /\ key = "__start__")))
        by (intros H; apply Hiff in H; discriminate).
      split; split; intros H; try reflexivity; try discriminate; tauto.
Qed.

(** A first entry without data hides the good entry after it, and of two
    messages in the first entry only the first is shown. *)
Lemma parseCheckpointMetadata_first_only_witness :
  let reply := mkWriteData "YCVectorKnowledge"
                 (Some [mkMessageData (Some (mkKwargs (Some "hello")));
                        mkMessageData (Some (mkKwargs (Some "again")))]) in
  parseCheckpointMetadata
    (mkCheckpoint 4 "loop" (Some [("human", None); ("ycKnowledge", Some reply)]))
  = None
  /\ parseCheckpointMetadata
       (mkCheckpoint 4 "loop" (Some [("ycKnowledge", Some reply); ("human", None)]))
     = parseCheckpointMetadata
         (mkCheckpoint 4 "loop"
            (Some [("ycKnowledge",
                    Some (mkWriteData "YCVectorKnowledge"
                            (Some [mkMessageData (Some (mkKwargs (Some "hello")))])))]))
  /\ parseCheckpointMetadata
       (mkCheckpoint 4 "loop"
          (Some [("ycKnowledge",
                  Some (mkWriteData "YCVectorKnowledge"
                          (Some [mkMessageData (Some (mkKwargs (Some "hello")))])))]))
     = Some (mkMessage assistant "hello").
Proof.
  cbv zeta.
  pose (reply := mkWriteData "YCVectorKnowledge"
                   (Some [mkMessageData (Some (mkKwargs (Some "hello")));
                          mkMessageData (Some (mkKwargs (Some "again")))])).
  split; [|split].
  - exact (proj1 (proj2 (proj2
             (parseCheckpointMetadata_first_only 4 "loop" "human" None
                [("ycKnowledge", Some reply)]))) eq_refl).
  - destruct (parseCheckpointMetadata_first_only 4 "loop" "ycKnowledge" (Some reply)
                [("human", None)]) as (_ & _ & _ & _ & Hfirst).
    exact (proj1 (Hfirst reply (mkMessageData (Some (mkKwargs (Some "hello"))))
                    [mkMessageData (Some (mkKwargs (Some "again")))] eq_refl eq_refl)).
  - reflexivity.
Defined.

Lemma sort_insert_stable (k : Z) x l :
  List.filter (fun c => (step c =? k)%Z) (sort_insert by_step x l)
  = List.filter (fun c => (step c =? k)%Z) (x :: l).
Proof.
  induction l as [|y r IH]; cbn [sort_insert]; [reflexivity|].
  change (by_step x y) with (step x - step y)%Z.
  destruct (Z.leb_spec (step x - step y) 0) as [Hle|Hgt]; [reflexivity|].
  cbn [List.filter]. rewrite IH. cbn [List.filter].
  destruct (Z.eqb_spec (step x) k) as [Hx|Hx];
    destruct (Z.eqb_spec (step y) k) as [Hy|Hy]; try reflexivity. lia.
Qed.

Lemma sort_insert_least x l :
  Forall (step_le x) l -> sort_insert by_step x l = x :: l.
Proof.
  intros Hall. destruct l as [|y r]; [reflexivity|].
  inversion Hall as [|? ? Hxy _]; subst. cbn [sort_insert].
  change (by_step x y) with (step x - step y)%Z. unfold step_le in Hxy.
  destruct (Z.leb_spec (step x - step y) 0); [reflexivity | lia].
Qed.

(** X8. The sort by step: the rows are rearranged into ascending steps;
    checkpoints that share a step keep the order in which the store returned
    them; and rows that arrive in ascending order are left exactly as they
    are. *)
Theorem js_sort_by_step_stable (checkpoints : list CheckpointMetadata) :
  js_sort by_step checkpoints ≡ₚ checkpoints
  /\ StronglySorted step_le (js_sort by_step checkpoints)
  /\ (forall k : Z,
        List.filter (fun c => (step c =? k)%Z) (js_sort by_step checkpoints)
        = List.filter (fun c => (step c =? k)%Z) checkpoints)
  /\ (StronglySorted step_le checkpoints -> js_sort by_step checkpoints = checkpoints).
Proof.
  split; [apply js_sort_perm|]. split; [apply js_sort_sorted|]. split.
  - intros k. induction checkpoints as [|x r IH]; [reflexivity|].
    cbn [js_sort]. rewrite sort_insert_stable. cbn [List.filter]. now rewrite IH.
  - induction 1 as [|x r Hs IH Hx]; [reflexivity|].
    cbn [js_sort]. rewrite IH. now apply sort_insert_least.
Qed.

(** Two rows share step 2: they stay in stored order behind step 1. *)
Lemma js_sort_by_step_stable_witness :
  let a := checkpoint 2 "loop" "ycKnowledge" "YCVectorKnowledge" "first" in
  let b := checkpoint 2 "loop" "ycKnowledge" "YCVectorKnowledge" "second" in
  let c := checkpoint 1 "input" "__start__" "user" "hi" in
  js_sort by_step [a; b; c] = [c; a; b]
  /\ js_sort by_step [c; a; b] = [c; a; b].
Proof.
  cbv zeta. split; [reflexivity|].
  apply (proj2 (proj2 (proj2 (js_sort_by_step_stable _)))).
  repeat constructor; unfold step_le; cbn; lia.
Defined.

Lemma scan_after_last p l :
  last (p :: scan_after p l) = last (p :: l).
Proof.
  revert p. induction l as [|m r IH]; intros p; [reflexivity|].
  cbn [scan_after]. destruct (same_message p m) eqn:E.
  - apply same_message_eq in E. subst m.
    rewrite (last_cons_cons p p r). apply IH.
  - rewrite !last_cons_cons. apply IH.
Qed.

(** X9. Collapsing repeats keeps both ends of the conversation and is stable:
    the first and the last message of the result are those of the input,
    nothing but input messages appears, in input order, and collapsing a
    second time changes nothing. *)
Theorem drop_repeats_keeps_ends (array : list Message) :
  head (drop_repeats array) = head array
  /\ last (drop_repeats array) = last array
  /\ drop_repeats array `sublist_of` array
  /\ drop_repeats (drop_repeats array) = drop_repeats array.
Proof.
  split; [|split; [|split]].
  - rewrite drop_repeats_scan. now destruct array.
  - rewrite drop_repeats_scan. destruct array as [|m r]; [reflexivity|].
    cbn [scan]. apply scan_after_last.
  - apply filter_indexed_sublist.
  - rewrite !drop_repeats_scan. apply scan_fixed, scan_differs.
Qed.

End ReconstructorMore.

(** ** Summary projector: repeated sections and the round trip *)

Section SummaryMore.
Import JsString Summary.

Lemma labels_exclusive sec :
  (startsWith label_discussions sec = true ->
     startsWith label_lastTask sec = false /\ startsWith label_context sec = false)
  /\ (startsWith label_lastTask sec = true ->
        startsWith label_discussions sec = false /\ startsWith label_context sec = false)
  /\ (startsWith label_context sec = true ->
        startsWith label_discussions sec = false /\ startsWith label_lastTask sec = false).
Proof.
  destruct sec as [|c s]; [repeat split; discriminate|].
  unfold label_discussions, label_lastTask, label_context. cbn [startsWith].
  repeat match goal with
         | |- context [Ascii.eqb ?a c] =>
             destruct (Ascii.eqb_spec a c) as [<-|?]
         end; cbn; intuition congruence.
Qed.

(** X10. When a label heads several sections, the last of them decides the
    bucket: the items of the earlier ones are discarded, not accumulated. *)
Theorem parseSummary_last_section_wins (summary : string)
    (before : list string) (sec : string) (behind : list string) :
  split (LF +:+ LF) summary = before ++ sec :: behind ->
  (startsWith label_discussions sec = true ->
     Forall (fun s => startsWith label_discussions s = false) behind ->
     discussions (parseSummary summary) = bullets label_discussions sec)
  /\ (startsWith label_lastTask sec = true ->
        Forall (fun s => startsWith label_lastTask s = false) behind ->
        lastTask (parseSummary summary) = bullets label_lastTask sec)
  /\ (startsWith label_context sec = true ->
        Forall (fun s => startsWith label_context s = false) behind ->
        context (parseSummary summary) = bullets label_context sec).
Proof.
  intros Hsplit. unfold parseSummary. cbv zeta. rewrite Hsplit.
  rewrite fold_left_app. cbn [fold_left].
  destruct (labels_exclusive sec) as (Hd & Ht & Hc).
  split; [|split]; intros Hsec Hbehind.
  - rewrite (fold_keeps discussions label_discussions step_keeps_discussions) by assumption.
    unfold step. now rewrite Hsec.
  - rewrite (fold_keeps lastTask label_lastTask step_keeps_lastTask) by assumption.
    unfold step. destruct (Ht Hsec) as [-> _]. now rewrite Hsec.
  - rewrite (fold_keeps context label_context step_keeps_context) by assumption.
    unfold step. destruct (Hc Hsec) as [-> ->]. now rewrite Hsec.
Qed.

(** Two discussion sections: only the second one is shown. *)
Lemma parseSummary_last_section_wins_witness :
  let summary := "Discussions till now:" +:+ LF +:+ "- old" +:+ LF +:+ LF
                 +:+ "Discussions till now:" +:+ LF +:+ "- new" in
  discussions (parseSummary summary) = ["new"].
Proof.
  cbv zeta.
  rewrite (proj1 (parseSummary_last_section_wins
                    ("Discussions till now:" +:+ LF +:+ "- old" +:+ LF +:+ LF
                     +:+ "Discussions till now:" +:+ LF +:+ "- new")
                    ["Discussions till now:" +:+ LF +:+ "- old"]
                    ("Discussions till now:" +:+ LF +:+ "- new") [] eq_refl)
             eq_refl (List.Forall_nil _)).
  reflexivity.
Defined.

(** *** Strings put together and taken apart *)

Lemma sapp_cons (c : ascii) (a b : string) : String c a +:+ b = String c (a +:+ b).
Proof. reflexivity. Qed.

Lemma sapp_nil_l (s : string) : EmptyString +:+ s = s.
Proof. reflexivity. Qed.

Lemma sapp_nil_r (s : string) : s +:+ EmptyString = s.
Proof.
  induction s as [|c s IH]; [reflexivity|]. rewrite sapp_cons. now f_equal.
Qed.

Lemma sapp_assoc (a b c : string) : (a +:+ b) +:+ c = a +:+ (b +:+ c).
Proof.
  induction a as [|x a IH]; [reflexivity|]. rewrite !sapp_cons. now f_equal.
Qed.

Lemma snoc_app (cur : string) (c : ascii) (a : string) :
  snoc cur c +:+ a = cur +:+ String c a.
Proof. unfold snoc. now rewrite sapp_assoc. Qed.

Lemma startsWith_app (p r : string) : startsWith p (p +:+ r) = true.
Proof.
  induction p as [|c p IH]; [reflexivity|].
  rewrite sapp_cons. cbn [startsWith]. now rewrite Ascii.eqb_refl.
Qed.

Lemma substring_from_app (p r : string) :
  substring_from (String.length p) (p +:+ r) = r.
Proof.
  induction p as [|c p IH]; [reflexivity|].
  rewrite sapp_cons. cbn [String.length substring_from]. exact IH.
Qed.

Lemma replace_prefix (p r : string) : replace p EmptyString (p +:+ r) = r.
Proof.
  unfold replace. destruct (p +:+ r) as [|c s'] eqn:E.
  - destruct p; [rewrite sapp_nil_l in E; subst; reflexivity | discriminate].
  - cbn [replace_go]. rewrite <- E, startsWith_app, substring_from_app. reflexivity.
Qed.

Lemma startsWith_LF (c : ascii) (s : string) :
  startsWith LF (String c s) = is_LF c.
Proof.
  unfold LF, is_LF. cbn [startsWith]. rewrite Ascii.eqb_sym.
  now destruct (Ascii.eqb c (ascii_of_nat 10)).
Qed.

Lemma split_LF_line (a : string) :
  one_line a = true -> forall cur, split_go LF a 0 cur = [cur +:+ a].
Proof.
  induction a as [|c a IH]; intros Hone cur.
  - cbn [split_go]. now rewrite sapp_nil_r.
  - cbn [one_line] in Hone. apply andb_true_iff in Hone as [Hc Ha].
    cbn [split_go]. rewrite startsWith_LF.
    apply negb_true_iff in Hc. rewrite Hc, (IH Ha). now rewrite snoc_app.
Qed.

Lemma split_LF_cons (a : string) :
  one_line a = true ->
  forall cur rest,
    split_go LF (a +:+ LF +:+ rest) 0 cur
    = (cur +:+ a) :: split_go LF rest 0 EmptyString.
Proof.
  induction a as [|c a IH]; intros Hone cur rest.
  - rewrite sapp_nil_l, sapp_nil_r. reflexivity.
  - cbn [one_line] in Hone. apply andb_true_iff in Hone as [Hc Ha].
    rewrite sapp_cons. cbn [split_go]. rewrite startsWith_LF.
    apply negb_true_iff in Hc. rewrite Hc, (IH Ha). now rewrite snoc_app.
Qed.

Lemma split_join_LF (lines : list string) :
  lines <> [] -> Forall (fun l => one_line l = true) lines ->
  split LF (join LF lines) = lines.
Proof.
  unfold split. intros Hne Hall. induction Hall as [|x r Hx Hr IH]; [congruence|].
  destruct r as [|y r'].
  - cbn [join]. now rewrite (split_LF_line x Hx).
  - change (join LF (x :: y :: r')) with (x +:+ LF +:+ join LF (y :: r')).
    rewrite (split_LF_cons x Hx), sapp_nil_l. f_equal.
    apply IH. discriminate.
Qed.

Lemma tight_no_separator (c : ascii) (a rest : string) :
  tight (String c a) = true ->
  startsWith (LF +:+ LF) (String c a +:+ LF +:+ LF +:+ rest) = false
  /\ startsWith (LF +:+ LF) (String c a) = false.
Proof.
  cbn [tight]. intros H. apply andb_true_iff in H as [H _].
  change (LF +:+ LF)
    with (String (ascii_of_nat 10) (String (ascii_of_nat 10) EmptyString)).
  rewrite sapp_cons. cbn [startsWith].
  rewrite (Ascii.eqb_sym _ c). fold (is_LF c).
  destruct (is_LF c); [|split; reflexivity].
  destruct a as [|d a']; [discriminate|].
  rewrite sapp_cons. rewrite (Ascii.eqb_sym _ d). fold (is_LF d).
  apply negb_true_iff in H. rewrite H. split; reflexivity.
Qed.

Lemma tight_tail (c : ascii) (a : string) : tight (String c a) = true -> tight a = true.
Proof. cbn [tight]. intros H. now apply andb_true_iff in H as [_ H]. Qed.

Lemma split_NL2_last (a : string) :
  tight a = true -> forall cur, split_go (LF +:+ LF) a 0 cur = [cur +:+ a].
Proof.
  induction a as [|c a IH]; intros Ht cur.
  - cbn [split_go]. now rewrite sapp_nil_r.
  - cbn [split_go]. rewrite (proj2 (tight_no_separator c a EmptyString Ht)).
    rewrite (IH (tight_tail c a Ht)). now rewrite snoc_app.
Qed.

Lemma split_NL2_cons (a : string) :
  tight a = true ->
  forall cur rest,
    split_go (LF +:+ LF) (a +:+ LF +:+ LF +:+ rest) 0 cur
    = (cur +:+ a) :: split_go (LF +:+ LF) rest 0 EmptyString.
Proof.
  induction a as [|c a IH]; intros Ht cur rest.
  - rewrite sapp_nil_l, sapp_nil_r. reflexivity.
  - pose proof (proj1 (tight_no_separator c a rest Ht)) as Hno.
    rewrite sapp_cons in Hno |- *. cbn [split_go]. rewrite Hno.
    rewrite (IH (tight_tail c a Ht)). now rewrite snoc_app.
Qed.

Lemma split_join_NL2 (secs : list string) :
  secs <> [] -> Forall (fun sec => tight sec = true) secs ->
  split (LF +:+ LF) (join (LF +:+ LF) secs) = secs.
Proof.
  unfold split. intros Hne Hall. induction Hall as [|x r Hx Hr IH]; [congruence|].
  destruct r as [|y r'].
  - cbn [join]. now rewrite (split_NL2_last x Hx).
  - change (join (LF +:+ LF) (x :: y :: r'))
      with (x +:+ LF +:+ LF +:+ join (LF +:+ LF) (y :: r')).
    rewrite (split_NL2_cons x Hx), sapp_nil_l. f_equal.
    apply IH. discriminate.
Qed.

(** *** Rendered sections *)

Lemma trimEnd_app (a b : string) :
  trimEnd b <> EmptyString -> trimEnd (a +:+ b) = a +:+ trimEnd b.
Proof.
  intros Hb. induction a as [|c a IH]; [reflexivity|].
  rewrite !sapp_cons. cbn [trimEnd]. rewrite IH.
  destruct (a +:+ trimEnd b) as [|d t] eqn:E; [|reflexivity].
  destruct a; [rewrite sapp_nil_l in E; congruence | discriminate].
Qed.

Lemma one_line_app (a b : string) :
  one_line (a +:+ b) = one_line a && one_line b.
Proof.
  induction a as [|c a IH]; [reflexivity|].
  rewrite sapp_cons. cbn [one_line]. rewrite IH. now rewrite andb_assoc.
Qed.

Lemma one_line_tight (a : string) : one_line a = true -> tight a = true.
Proof.
  induction a as [|c a IH]; [reflexivity|]. cbn [one_line tight].
  intros H. apply andb_true_iff in H as [Hc Ha].
  apply negb_true_iff in Hc. rewrite Hc. now apply IH.
Qed.

(** A line-feed free text in front of a tight one that starts with a dash. *)
Lemma tight_lines (a b : string) :
  one_line a = true -> tight (String "-" b) = true ->
  tight (a +:+ LF +:+ String "-" b) = true.
Proof.
  intros Ha Hb. induction a as [|c a IH].
  - rewrite sapp_nil_l. exact Hb.
  - cbn [one_line] in Ha. apply andb_true_iff in Ha as [Hc Ha].
    rewrite sapp_cons. cbn [tight]. apply negb_true_iff in Hc. rewrite Hc.
    now apply IH.
Qed.

Lemma render_line_facts item :
  plain_item item ->
  one_line (render_line item) = true
  /\ trim (render_line item) = render_line item
  /\ startsWith "-" (trim (render_line item)) = true
  /\ substring_from 2 (trim (render_line item)) = item.
Proof.
  intros (_ & Hne & Hone & Hend).
  assert (Htrim : trim (render_line item) = render_line item).
  { unfold trim, render_line.
    change (trimStart ("- " +:+ item)) with ("- " +:+ item).
    rewrite trimEnd_app by (rewrite Hend; exact Hne). now rewrite Hend. }
  rewrite Htrim. repeat split.
  unfold render_line. now rewrite one_line_app, Hone.
Qed.

Lemma body_facts (items : list string) :
  items <> [] -> Forall plain_item items ->
  exists b,
    join LF (map render_line items) = String "-" b
    /\ tight (String "-" b) = true
    /\ trimEnd (String "-" b) = String "-" b.
Proof.
  induction items as [|item r IH]; intros Hne Hplain; [congruence|].
  inversion Hplain as [|? ? Hitem Hr]; subst.
  destruct (render_line_facts item Hitem) as (Hone & Htrim & _ & _).
  destruct r as [|item' r'].
  - exists (" " +:+ item). cbn [map join]. repeat split.
    + now apply one_line_tight.
    + exact Htrim.
  - destruct (IH ltac:(discriminate) Hr) as (b & Hb & Htight & Hend).
    exists (" " +:+ item +:+ LF +:+ String "-" b).
    change (join LF (map render_line (item :: item' :: r')))
      with (render_line item +:+ LF +:+ join LF (map render_line (item' :: r'))).
    rewrite Hb. repeat split.
    + now apply (tight_lines (render_line item) b).
    + change (String "-" (" " +:+ item +:+ LF +:+ String "-" b))
        with (render_line item +:+ LF +:+ String "-" b).
      rewrite <- sapp_assoc.
      rewrite trimEnd_app by (rewrite Hend; discriminate). now rewrite Hend.
Qed.

Lemma body_lines (items : list string) :
  items <> [] -> Forall plain_item items ->
  split LF (join LF (map render_line items)) = map render_line items.
Proof.
  intros Hne Hplain. apply split_join_LF.
  - destruct items; [congruence | discriminate].
  - apply Forall_forall. intros l Hl. apply list_elem_of_fmap in Hl as (i & -> & Hi).
    rewrite Forall_forall in Hplain. now apply render_line_facts, Hplain.
Qed.

Lemma bullets_render (label : string) (items : list string) :
  items <> [] -> Forall plain_item items ->
  bullets label (render_section label items) = items.
Proof.
  intros Hne Hplain.
  unfold bullets, render_section. rewrite replace_prefix.
  destruct (body_facts items Hne Hplain) as (b & Hb & _ & Hend).
  assert (Htrim : trim (LF +:+ join LF (map render_line items))
                  = join LF (map render_line items)).
  { rewrite Hb. unfold trim.
    change (trimStart (LF +:+ String "-" b)) with (String "-" b). exact Hend. }
  rewrite Htrim, (body_lines items Hne Hplain).
  clear Htrim Hb Hend b Hne.
  induction Hplain as [|item r Hitem Hr IH]; [reflexivity|].
  destruct (render_line_facts item Hitem) as (_ & _ & Hdash & Hsub).
  cbn [map List.filter]. rewrite Hdash. cbn [map]. now rewrite Hsub, IH.
Qed.

Lemma section_tight (label : string) (items : list string) :
  items <> [] -> Forall plain_item items ->
  one_line label = true -> tight (render_section label items) = true.
Proof.
  intros Hne Hplain Hl. unfold render_section.
  destruct (body_facts items Hne Hplain) as (b & -> & Htight & _).
  now apply tight_lines.
Qed.


Lemma step_render g items :
  items <> [] -> Forall plain_item items ->
  step g (render_section label_discussions items)
    = mkFormatted items (lastTask g) (context g)
  /\ step g (render_section label_lastTask items)
     = mkFormatted (discussions g) items (context g)
  /\ step g (render_section label_context items)
     = mkFormatted (discussions g) (lastTask g) items.
Proof.
  intros Hne Hplain. unfold step.
  rewrite !(bullets_render _ items Hne Hplain).
  unfold render_section at 1 4 7. rewrite !startsWith_app.
  repeat split.
Qed.

(** X11. Round trip: a summary written in the expected layout is read back
    exactly. Each bucket that has items gets its labelled section with one
    dashed line per item; provided the items are ASCII text on a single
    line, not empty and without a blank at their end, [parseSummary] returns
    the three buckets as they were rendered. *)
Theorem parseSummary_render (f : FormattedSummary) :
  Forall plain_item (discussions f) ->
  Forall plain_item (lastTask f) ->
  Forall plain_item (context f) ->
  parseSummary (render_summary f) = f.
Proof.
  destruct f as [d t c]. cbn [discussions lastTask context].
  intros Hd Ht Hc.
  unfold parseSummary, render_summary, render_sections.
  cbn [discussions lastTask context]. cbv zeta.
  destruct d as [|d0 d']; destruct t as [|t0 t']; destruct c as [|c0 c'];
    cbn [app]; try reflexivity;
    (rewrite split_join_NL2;
     [ cbn [fold_left];
       repeat match goal with
              | |- context [step ?g (render_section label_discussions ?i)] =>
                  rewrite (proj1 (step_render g i ltac:(discriminate) ltac:(assumption)))
              | |- context [step ?g (render_section label_lastTask ?i)] =>
                  rewrite (proj1 (proj2 (step_render g i ltac:(discriminate)
                                           ltac:(assumption))))
              | |- context [step ?g (render_section label_context ?i)] =>
                  rewrite (proj2 (proj2 (step_render g i ltac:(discriminate)
                                           ltac:(assumption))))
              end; reflexivity
     | discriminate
     | repeat constructor; apply section_tight;
         (discriminate || assumption || reflexivity) ]).
Qed.

(** A summary with two of the three sections. *)
Lemma parseSummary_render_witness :
  let f := mkFormatted ["pricing"; "first users: 3 pilots"] []
                       ["B2B, pre-seed"] in
  render_summary f
  = "Discussions till now:" +:+ LF +:+ "- pricing" +:+ LF +:+ "- first users: 3 pilots"
    +:+ LF +:+ LF +:+ "Important context for next interactions:" +:+ LF
    +:+ "- B2B, pre-seed"
  /\ parseSummary (render_summary f) = f.
Proof.
  cbv zeta. split; [reflexivity|].
  apply parseSummary_render; cbn [discussions lastTask context];
    repeat constructor; discriminate.
Defined.

(** An item that ends in a no-break space is not plain, and it is read back
    without that space. *)
Example parseSummary_no_break_space :
  let item := "A" +:+ String (ascii_of_nat 160) EmptyString in
  parseSummary (label_discussions +:+ LF +:+ render_line item)
  = mkFormatted ["A"] [] []
  /\ ~ plain_item item.
Proof.
  cbv zeta. split; [reflexivity|].
  intros (Hascii & _). vm_compute in Hascii. discriminate Hascii.
Qed.

End SummaryMore.

(** ** Responder: the calls it makes and the answers it can give *)

Section ResponderMore.
Import JsString Responder.

Ltac run :=
  unfold invoke, try_body, search_in_parallel, bind, started, lift, ret, throw.

Lemma invoke_outcomes_answer {Vec Score Structured : Type}
    (svc : Services Vec Score Structured) (state : GraphState) (log : list Call) :
  u_answer (snd (invoke svc state log)) = APOLOGY
  \/ u_answer (snd (invoke svc state log)) = NO_RESULTS
  \/ exists prompt content,
       llmInvoke svc prompt = inr content
       /\ u_answer (snd (invoke svc state log)) = answer_of svc content.
Proof.
  run.
  destruct (embedQuery svc 0 (input state)) as [e0|v]; cbn; auto.
  destruct (indexQuery svc v 2 (classify (input state))) as [e1|results]; cbn; auto.
  destruct (embedQuery svc 1 (input state)) as [e2|v']; cbn; auto.
  destruct (matches results) as [[|m ms]|]; cbn -[formatAll]; auto.
  destruct (formatAll svc (m :: ms)) as [e3|fr]; auto.
  destruct (promptFormat svc _ (input state) (stringifyResults svc true fr))
    as [e4|prompt]; auto.
  cbn. destruct (llmInvoke svc prompt) as [e5|content] eqn:Hl; auto.
  right. right. exists prompt, content. split; [exact Hl|]. now destruct content.
Qed.

(** X12. Every turn, whatever the services do: the only calls are the embedding
    of the query, then the index query with the second embedding, then at
    most one completion; the update is always the pair (query, answer); and
    the answer is the apology, the "no results" text (after a retrieval and
    no completion call), or the text of the completion that was obtained for
    the prompt of the one completion call. *)
Theorem invoke_outcomes {Vec Score Structured : Type}
    (svc : Services Vec Score Structured) (state : GraphState) (log : list Call) :
  let q := input state in
  let u := snd (invoke svc state log) in
  exists calls,
    fst (invoke svc state log) = log ++ calls
    /\ (calls = [CallEmbed q] \/ calls = retrieval_calls q
        \/ exists prompt, calls = retrieval_calls q ++ [CallLlm prompt])
    /\ u_chat_history u = [HumanMessage q; AIMessage (u_answer u)]
    /\ (u_answer u = APOLOGY
        \/ (u_answer u = NO_RESULTS /\ calls = retrieval_calls q)
        \/ exists prompt content,
             calls = retrieval_calls q ++ [CallLlm prompt]
             /\ llmInvoke svc prompt = inr content
             /\ u_answer u = answer_of svc content).
Proof.
  cbv zeta. run.
  destruct (embedQuery svc 0 (input state)) as [e0|v] eqn:Hv; cbn.
  { exists [CallEmbed (input state)]. repeat split; auto. }
  destruct (indexQuery svc v 2 (classify (input state))) as [e1|results] eqn:Hq; cbn.
  { exists (retrieval_calls (input state)). unfold retrieval_calls.
    rewrite <- !app_assoc. repeat split; auto. }
  destruct (embedQuery svc 1 (input state)) as [e2|v'] eqn:Hv'; cbn.
  { exists (retrieval_calls (input state)). unfold retrieval_calls.
    rewrite <- !app_assoc. repeat split; auto. }
  destruct (matches results) as [[|m ms]|] eqn:Hms; cbn -[formatAll].
  1,3: exists (retrieval_calls (input state)); unfold retrieval_calls;
       rewrite <- !app_assoc; repeat split; auto.
  destruct (formatAll svc (m :: ms)) as [e3|fr] eqn:Hfr.
  { exists (retrieval_calls (input state)). unfold retrieval_calls.
    rewrite <- !app_assoc. repeat split; auto. }
  destruct (promptFormat svc _ (input state) (stringifyResults svc true fr))
    as [e4|prompt] eqn:Hp.
  { exists (retrieval_calls (input state)). unfold retrieval_calls.
    rewrite <- !app_assoc. repeat split; auto. }
  cbn. destruct (llmInvoke svc prompt) as [e5|content] eqn:Hl.
  - exists (retrieval_calls (input state) ++ [CallLlm prompt]). unfold retrieval_calls.
    rewrite <- !app_assoc. repeat split; eauto.
  - exists (retrieval_calls (input state) ++ [CallLlm prompt]). unfold retrieval_calls.
    rewrite <- !app_assoc. repeat split; eauto.
    right. right. exists prompt, content.
    split; [reflexivity|]. split; [exact Hl|]. now destruct content.
Qed.

(** X13. The turn that works: with matches retrieved, formatted and rendered into
    a prompt, the completion service is called once, with that prompt; its
    text is the answer, unchanged; the history gains (query, answer); and the
    context is the compact serialisation of the formatted matches. *)
Theorem invoke_answers_with_completion {Vec Score Structured : Type}
    (svc : Services Vec Score Structured) (state : GraphState) (log : list Call)
    (ms : list (Match Score)) (fr : list FormattedResult) (prompt : string)
    (content : LlmContent Structured) :
  retrieved svc state ms ->
  formatAll svc ms = inr fr ->
  rendered svc state fr = inr prompt ->
  llmInvoke svc prompt = inr content ->
  invoke svc state log
  = (log ++ retrieval_calls (input state) ++ [CallLlm prompt],
     mkUpdate [HumanMessage (input state); AIMessage (answer_of svc content)]
              (stringifyResults svc false fr) (answer_of svc content))
  /\ reduce_history state (snd (invoke svc state log))
     = chat_history state
       ++ [HumanMessage (input state); AIMessage (answer_of svc content)].
Proof.
  intros (v & v' & results & Hv & Hq & Hv' & Hms & Hne) Hfr Hp Hl.
  assert (H : invoke svc state log
              = (log ++ retrieval_calls (input state) ++ [CallLlm prompt],
                 mkUpdate [HumanMessage (input state); AIMessage (answer_of svc content)]
                          (stringifyResults svc false fr) (answer_of svc content))).
  { run. rewrite Hv. cbn. rewrite Hq, Hv'. cbn. rewrite Hms.
    destruct ms as [|m ms']; [congruence|]. rewrite Hfr.
    unfold rendered in Hp. rewrite Hp. cbn. rewrite Hl.
    unfold retrieval_calls. rewrite <- !app_assoc. now destruct content. }
  rewrite H. split; reflexivity.
Qed.

(** One company is found and the model answers. *)
Lemma invoke_answers_with_completion_witness :
  let svc := services_with (fun _ => inr tt) (Some [a_company])
                           (inr (TextContent "Rippling started with payroll.")) in
  let state := mkGraphState "what does Rippling do" [HumanMessage "hi"] in
  u_answer (snd (invoke svc state [])) = "Rippling started with payroll."
  /\ fst (invoke svc state [])
     = [CallEmbed "what does Rippling do"; CallQuery 2 "company";
        CallEmbed "what does Rippling do"; CallLlm "what does Rippling do [...]"].
Proof.
  cbv zeta.
  destruct (invoke_answers_with_completion
              (services_with (fun _ => inr tt) (Some [a_company])
                             (inr (TextContent "Rippling started with payroll.")))
              (mkGraphState "what does Rippling do" [HumanMessage "hi"]) []
              [a_company]
              [Company "Rippling" "N/A" "W17" "N/A" "B2b, Hr Tech" "N/A" "87.50"]
              "what does Rippling do [...]"
              (TextContent "Rippling started with payroll."))
    as [H _]; try reflexivity.
  { exists tt, tt, (mkSearchResults (Some [a_company])). repeat split; discriminate. }
  rewrite H. split; reflexivity.
Defined.

Lemma or_na_filled x : or_na x <> EmptyString.
Proof.
  unfold or_na. destruct x as [s|]; [|discriminate].
  destruct s; cbn; discriminate.
Qed.

Lemma formatMatch_facts {Vec Score Structured : Type}
    (svc : Services Vec Score Structured) (m : Match Score) (r : FormattedResult) :
  formatMatch svc m = inr r ->
  Forall (fun field => field <> EmptyString) (scalar_fields r)
  /\ length (qa_of r) <= 3
  /\ exists md, metadata m = Some md
                /\ is_company r = String.eqb (m_type md) "company".
Proof.
  unfold formatMatch. destruct (metadata m) as [md|]; [|discriminate].
  destruct (String.eqb (m_type md) "company") eqn:E; intros [= <-]; cbn.
  - repeat split; [repeat constructor; apply or_na_filled | lia | eauto].
  - repeat split; [repeat constructor; apply or_na_filled | | eauto].
    destruct (m_qa_pairs md) as [qa|]; cbn; [|lia].
    rewrite length_take. lia.
Qed.

(** X14. Formatting the matches fails exactly when some match has no metadata.
    When it succeeds there is one record per match, in order; a match is
    presented as a company only if its type is "company" and as an
    application in every other case; the name, description, batch and date or
    status of a record are never empty (a missing or empty one reads "N/A");
    and at most three question-answer pairs are kept. *)
Theorem formatAll_spec {Vec Score Structured : Type}
    (svc : Services Vec Score Structured) (ms : list (Match Score)) :
  ((exists frs, formatAll svc ms = inr frs)
     <-> Forall (fun m => metadata m <> None) ms)
  /\ forall frs, formatAll svc ms = inr frs ->
       Forall2 (fun m r =>
                  exists md, metadata m = Some md
                             /\ is_company r = String.eqb (m_type md) "company")
               ms frs
       /\ Forall (fun r => Forall (fun field => field <> EmptyString) (scalar_fields r)
                           /\ length (qa_of r) <= 3) frs.
Proof.
  induction ms as [|m ms [IHiff IHok]].
  - split.
    + split; [constructor | intros _; now exists []].
    + intros frs [= <-]. split; constructor.
  - cbn [formatAll]. destruct (formatMatch svc m) as [e|r] eqn:Hm.
    + split.
      * split; [intros [frs H]; discriminate|].
        intros Hall. inversion Hall as [|? ? Hmd _]; subst.
        unfold formatMatch in Hm. destruct (metadata m); [|congruence].
        destruct (String.eqb _ _); discriminate.
      * discriminate.
    + destruct (formatMatch_facts svc m r Hm) as (Hfields & Hqa & md & Hmd & Htype).
      destruct (formatAll svc ms) as [e|rs] eqn:Hrest.
      * split; [|discriminate].
        split; [intros [frs H]; discriminate|].
        intros Hall. inversion Hall as [|? ? _ Hall']; subst.
        apply IHiff in Hall' as [frs H]. discriminate.
      * split.
        -- split; [|intros _; now exists (r :: rs)].
           intros _. constructor; [congruence|]. apply IHiff. now exists rs.
        -- intros frs [= <-]. destruct (IHok rs eq_refl) as [H2 Hall].
           split; constructor; eauto.
Qed.

(** A match without metadata next to a complete one: formatting fails. *)
Lemma formatAll_spec_witness :
  let svc := services_with (fun _ => inr tt) None (inr (TextContent "")) in
  (exists frs, formatAll svc [a_company] = inr frs)
  /\ ~ (exists frs, formatAll svc [a_company; mkMatch tt None] = inr frs).
Proof.
  cbv zeta. split.
  - apply (proj1 (formatAll_spec _ [a_company])).
    repeat constructor. discriminate.
  - intros H. apply (proj1 (formatAll_spec _ [a_company; mkMatch tt None])) in H.
    inversion H as [|? ? _ H']; subst. inversion H' as [|? ? Hnone _]; subst.
    now apply Hnone.
Defined.

(** X15. The node around the responder always returns exactly one message, sent
    as "YCVectorKnowledge". Without any message in the state no service is
    called and the text asks to rephrase; otherwise the query is the text of
    the last message, the history handed to the responder is the whole
    message list (the query included), and the text is the responder's
    answer: the apology, the "no results" text, or the completion's text. *)
Theorem ycVectorNode_replies {Vec Score Structured : Type}
    (svc : Services Vec Score Structured) (messages : list BaseMessage)
    (log : list Call) :
  let out := ycVectorNode svc messages log in
  n_sender (snd out) = SENDER
  /\ (messages = [] ->
      out = (log, mkNodeUpdate [mkNodeMessage REPHRASE (Some SENDER)] SENDER))
  /\ (forall earlier lastMessage,
        messages = earlier ++ [lastMessage] ->
        let run := invoke svc (mkGraphState (message_content lastMessage) messages) log in
        out = (fst run, mkNodeUpdate [mkNodeMessage (u_answer (snd run)) None] SENDER)
        /\ (u_answer (snd run) = APOLOGY \/ u_answer (snd run) = NO_RESULTS
            \/ exists prompt content,
                 llmInvoke svc prompt = inr content
                 /\ u_answer (snd run) = answer_of svc content)).
Proof.
  cbv zeta. unfold ycVectorNode. split; [|split].
  - destruct (last messages); [|reflexivity].
    now destruct (invoke svc _ log).
  - intros ->. reflexivity.
  - intros earlier lastMessage ->. rewrite last_snoc.
    destruct (invoke svc _ log) as [log' result] eqn:Hrun. split; [reflexivity|].
    destruct (invoke_outcomes_answer svc
                (mkGraphState (message_content lastMessage) (earlier ++ [lastMessage]))
                log) as [H|[H|H]];
      rewrite Hrun in H; cbn [snd] in *; auto.
Qed.

(** An empty state, and a state whose last message is the question. *)
Lemma ycVectorNode_replies_witness :
  let svc := services_with (fun _ => inr tt) (Some []) (inr (TextContent "unused")) in
  ycVectorNode svc [] []
  = ([], mkNodeUpdate [mkNodeMessage REPHRASE (Some SENDER)] SENDER)
  /\ snd (ycVectorNode svc [AIMessage "hello"; HumanMessage "my application"] [])
     = mkNodeUpdate [mkNodeMessage NO_RESULTS None] SENDER.
Proof.
  cbv zeta. split.
  - exact (proj1 (proj2 (ycVectorNode_replies
                           (services_with (fun _ => inr tt) (Some [])
                                          (inr (TextContent "unused"))) [] []))
                 eq_refl).
  - destruct (proj2 (proj2 (ycVectorNode_replies
                              (services_with (fun _ => inr tt) (Some [])
                                             (inr (TextContent "unused")))
                              [AIMessage "hello"; HumanMessage "my application"] []))
                    [AIMessage "hello"] (HumanMessage "my application") eq_refl)
      as [Hout _].
    rewrite Hout. reflexivity.
Defined.

End ResponderMore.

(** ** Gateway: the whole stream, blank fragments, what the routes let through *)

Section GatewayMore.
Import JsString Gateway.

Lemma stream_task_healthy (f : JsError) (response_ : Generation) :
  forall texts,
    attempts (writer (fst (stream_task response_
                             (mkGState (mkWriter (data_ok texts) true None f) false))))
    = data_ok (texts ++ fragment_texts response_)
      ++ [(Write (final_event response_), true); (Close, true)].
Proof.
  induction response_ as [|error|message rest IH]; intros texts.
  - cbn -[data_ok]. now rewrite app_nil_r, <- app_assoc.
  - cbn -[data_ok]. now rewrite app_nil_r, <- app_assoc.
  - destruct message as [content|].
    + rewrite fragment_texts_yield. cbn [final_event].
      destruct (truthy (contentToSend content)) eqn:Htext.
      * replace (texts ++ contentToSend content :: fragment_texts rest)
          with ((texts ++ [contentToSend content]) ++ fragment_texts rest)
          by now rewrite <- app_assoc.
        rewrite <- IH, <- data_ok_snoc.
        unfold stream_task, gbind.
        cbn -[data_ok contentToSend truthy after_loop on_error].
        rewrite Htext. reflexivity.
      * rewrite <- IH. unfold stream_task, gbind.
        cbn -[data_ok contentToSend truthy after_loop on_error].
        rewrite Htext. reflexivity.
    + cbn -[data_ok]. now rewrite app_nil_r, <- app_assoc.
Qed.

(** X16. The whole stream of a turn that the client follows to the end: one data
    event per fragment that has a text, in order, up to the first message
    that is not an AI chunk; then a single closing event (the error event
    with the error's message, or "Unknown error" for a thrown value that is
    not an Error, when the generation throws; the sentinel otherwise); then
    the close. Whatever the graph yields after a message of another kind is
    never sent. *)
Theorem handleChatStream_whole_stream
    (env : Env Graph) (stringify_error : string -> string) (f : JsError)
    (message threadId : string) (activeThreads : gmap string Z)
    (g : Graph) (response_ : Generation) :
  threadId <> EmptyString ->
  initializeGraph env = inr g ->
  stream g message threadId = inr response_ ->
  wire (handleChatStream env stringify_error None f message threadId activeThreads)
  = data_ok (fragment_texts response_)
    ++ [(Write (final_event response_), true); (Close, true)]
  /\ reply (handleChatStream env stringify_error None f message threadId activeThreads)
     = Some EventStream.
Proof.
  intros Hid Hg Hstream.
  destruct (handleChatStream_opened env stringify_error None f message threadId
              activeThreads g response_ Hid Hg Hstream) as [Hwire Hreply].
  split; [|exact Hreply]. rewrite Hwire.
  exact (stream_task_healthy f response_ []).
Qed.

(** The model fails after one chunk; and a run in which a message of
    another kind comes before further chunks. *)
Lemma handleChatStream_whole_stream_witness :
  let failing := GenYield (AIMessageChunk (ContentString "Hel"))
                   (GenThrow (ErrorObj "529 overloaded")) in
  let cut := GenYield (AIMessageChunk (ContentString "Hel"))
               (GenYield NonAIMessage
                  (GenYield (AIMessageChunk (ContentString "lo")) GenEnd)) in
  wire (handleChatStream (env_streaming failing) id None (ErrorObj "aborted") "hi" "t1" ∅)
  = [(Write (DataEvent "Hel"), true);
     (Write (ErrorEvent "529 overloaded"), true); (Close, true)]
  /\ wire (handleChatStream (env_streaming cut) id None (ErrorObj "aborted") "hi" "t1" ∅)
     = [(Write (DataEvent "Hel"), true); (Write DoneEvent, true); (Close, true)].
Proof.
  cbv zeta. split.
  - match goal with
    | |- wire (handleChatStream (env_streaming ?r) ?s None ?f ?m ?i ?a) = _ =>
        rewrite (proj1 (handleChatStream_whole_stream
                          (env_streaming r) s f m i a (mkGraph (fun _ _ => inr r)) r
                          ltac:(discriminate) eq_refl eq_refl))
    end.
    reflexivity.
  - match goal with
    | |- wire (handleChatStream (env_streaming ?r) ?s None ?f ?m ?i ?a) = _ =>
        rewrite (proj1 (handleChatStream_whole_stream
                          (env_streaming r) s f m i a (mkGraph (fun _ _ => inr r)) r
                          ltac:(discriminate) eq_refl eq_refl))
    end.
    reflexivity.
Defined.

Lemma join_filled (sep : string) (l : list string) :
  l <> [] -> Forall (fun x => truthy x = true) l -> join sep l <> EmptyString.
Proof.
  intros Hne Hall. destruct Hall as [|x r Hx _]; [congruence|].
  destruct x as [|c x']; [discriminate|].
  destruct r; cbn [join]; discriminate.
Qed.

Lemma item_text_blank (item : ContentItem) :
  truthy (match item with
          | ItemString s => s
          | ItemComplex c => handleComplexContent c
          end) = false <-> blank_item item.
Proof.
  destruct item as [s|[text|url| |]]; cbn [handleComplexContent blank_item].
  - destruct s; cbn; split; congruence.
  - destruct text; cbn; split; congruence.
  - cbn. split; [discriminate | contradiction].
  - tauto.
  - tauto.
Qed.

(** X17. A fragment has nothing to send exactly when its content is blank: the
    empty string, a value that is neither a string nor an array, or an array
    in which every item is an empty string, an empty text item or an item of
    a type other than text and image. An image item always gives a text, and
    so does any non-empty string or text item. *)
Theorem contentToSend_empty_iff (content : MessageContent) :
  contentToSend content = EmptyString <-> blank_content content.
Proof.
  unfold contentToSend. destruct content as [s|items|b]; cbn [content_truthy blank_content].
  - destruct s; cbn; split; congruence.
  - cbn [convertMessageContentToString]. split.
    + intros Hjoin.
      assert (Hnil : List.filter truthy
                       (map (fun item => match item with
                                         | ItemString s => s
                                         | ItemComplex c => handleComplexContent c
                                         end) items) = []).
      { destruct (List.filter truthy _) as [|x r] eqn:E; [reflexivity|].
        exfalso. revert Hjoin. apply join_filled; [discriminate|].
        apply Forall_forall. intros y Hy. rewrite <- E in Hy.
        apply list_elem_of_In, filter_In in Hy. tauto. }
      clear Hjoin. induction items as [|item r IH]; [constructor|].
      cbn [map List.filter] in Hnil.
      destruct (truthy _) eqn:Ht in Hnil; [discriminate|].
      constructor; [now apply item_text_blank | now apply IH].
    + apply blank_items_convert.
  - split; [trivial|]. intros _. now destruct b.
Qed.

(** X18. What the two routes let through. [GET] calls the handler exactly when
    both parameters are present and non-empty, with those very strings, and
    answers 400 otherwise. [POST] calls it exactly when the body is JSON
    other than [null] and both fields are truthy; the values are handed over
    as they are, whatever their type. *)
Theorem routes_accept_iff :
  (forall request message threadId,
     GET request = CallHandleChatStream message threadId
     <-> q_message request = Some message /\ q_threadId request = Some threadId
         /\ message <> EmptyString /\ threadId <> EmptyString)
  /\ (forall request, (exists m t, GET request = CallHandleChatStream m t)
                      \/ GET request = Reply 400 REQUIRED)
  /\ (forall body message threadId,
        POST body = CallHandleChatStream message threadId
        <-> exists b, body = inr b /\ b <> JNull
                      /\ message = field_of body "message"
                      /\ threadId = field_of body "threadId"
                      /\ value_truthy message = true
                      /\ value_truthy threadId = true).
Proof.
  split; [|split].
  - intros [[m|] [t|]] message threadId; unfold GET; cbn [q_message q_threadId].
    + destruct m as [|c m']; destruct t as [|d t']; cbn;
        (split; [intros H; try discriminate H; injection H as <- <-;
                 repeat split; discriminate
                |intros (H1 & H2 & H3 & H4); injection H1 as <-; injection H2 as <-;
                 congruence]).
    + split; [discriminate | intros (_ & H & _); discriminate].
    + split; [discriminate | intros (H & _); discriminate].
    + split; [discriminate | intros (H & _); discriminate].
  - intros [[m|] [t|]]; unfold GET; cbn [q_message q_threadId]; auto.
    destruct (negb (truthy m) || negb (truthy t)); eauto.
  - intros body message threadId. unfold POST. split.
    + destruct body as [e|b]; [discriminate|].
      destruct b; cbn [get_property]; try discriminate;
        cbn [value_truthy negb orb].
      destruct (value_truthy (lookup_field "message" fields)) eqn:Hm;
        destruct (value_truthy (lookup_field "threadId" fields)) eqn:Ht;
        cbn [negb orb]; try discriminate.
      intros [= <- <-]. eexists. repeat split; try eassumption. discriminate.
    + intros (b & -> & Hnull & -> & -> & Hm & Ht).
      destruct b; cbn [get_property field_of] in *; try congruence;
        try discriminate Hm.
      now rewrite Hm, Ht.
Qed.

(** A body with a number as message passes the check. *)
Lemma routes_accept_iff_witness :
  POST (inr (JObj [("message", JNum 5); ("threadId", JStr "t1")]))
  = CallHandleChatStream (Some (JNum 5)) (Some (JStr "t1"))
  /\ GET (mkGetRequest (Some "hi") (Some "")) = Reply 400 REQUIRED.
Proof.
  destruct routes_accept_iff as (Hget & Hcases & Hpost). split.
  - apply Hpost. eexists. repeat split. discriminate.
  - destruct (Hcases (mkGetRequest (Some "hi") (Some ""))) as [(m & t & H)|H];
      [|exact H].
    apply Hget in H as (_ & Ht & _ & Hne). cbn in Ht. congruence.
Defined.

(** X19. Serving a [GET] request touches the registry in one way only: the entry
    of the request's thread id may be added, with the current time. A request
    that fails validation, or whose thread is already tracked, leaves the
    registry as it is; in every other case the thread is tracked afterwards,
    whether or not the turn could be started. *)
Theorem serve_GET_registry
    (env : Env Graph) (stringify_error : string -> string)
    (tr : option nat) (f : JsError) (request : GetRequest)
    (activeThreads : gmap string Z) :
  let after := threads (serve_GET env stringify_error tr f request activeThreads) in
  (forall id, q_threadId request <> Some id -> after !! id = activeThreads !! id)
  /\ (forall message threadId,
        GET request = CallHandleChatStream message threadId ->
        is_Some (after !! threadId)
        /\ (is_Some (activeThreads !! threadId) -> after = activeThreads)
        /\ (activeThreads !! threadId = None -> after !! threadId = Some (now env)))
  /\ (GET request = Reply 400 REQUIRED -> after = activeThreads).
Proof.
  cbv zeta.
  assert (Hthreads : forall message threadId,
            threads (handleChatStream env stringify_error tr f message threadId activeThreads)
            = fst (createOrGetConversation env (Some threadId) activeThreads)).
  { intros message threadId. unfold handleChatStream, api_error.
    destruct (createOrGetConversation env (Some threadId) activeThreads)
      as [threads_ [error|conv]]; cbn [fst negb new_writer isStreamClosed].
    - reflexivity.
    - destruct (stream (graph conv) message (thread_id conv)) as [error|response_].
      + reflexivity.
      + now destruct (stream_task response_ _). }
  assert (Hresolve : forall threadId, threadId <> EmptyString ->
            fst (createOrGetConversation env (Some threadId) activeThreads)
            = if bool_decide (is_Some (activeThreads !! threadId))
              then activeThreads else <[threadId := now env]> activeThreads).
  { intros threadId Hne. unfold createOrGetConversation, tracked, or_fresh.
    rewrite (truthy_nonempty threadId Hne). cbn [andb].
    now destruct (bool_decide (is_Some (activeThreads !! threadId))). }
  unfold serve_GET.
  destruct (GET request) as [status error|message threadId] eqn:Hget; cbn [threads].
  - split; [intros; reflexivity|].
    split; [intros ? ? H; discriminate H | reflexivity].
  - assert (Hq : q_threadId request = Some threadId /\ threadId <> EmptyString).
    { unfold GET in Hget.
      destruct (q_message request) as [m|]; [|discriminate].
      destruct (q_threadId request) as [t|]; [|discriminate].
      destruct (truthy m) eqn:Hm; destruct (truthy t) eqn:Ht; cbn in Hget;
        try discriminate.
      injection Hget as <- <-. split; [reflexivity|]. intros ->. discriminate Ht. }
    destruct Hq as [Hq Hne].
    rewrite Hthreads, (Hresolve threadId Hne).
    split; [|split; [|discriminate]].
    + intros id Hid. case_bool_decide; [reflexivity|].
      rewrite lookup_insert_ne; [reflexivity|]. intros ->. now apply Hid.
    + intros message' threadId' [= <- <-]. case_bool_decide as Hlive.
      * split; [exact Hlive|]. split; [reflexivity|].
        intros Hnone. rewrite Hnone in Hlive. now destruct Hlive.
      * rewrite lookup_insert_eq. split; [eauto|].
        split; [intros H; contradiction | reflexivity].
Qed.

(** A new visitor's first message. *)
Lemma serve_GET_registry_witness :
  let response_ := GenYield (AIMessageChunk (ContentString "Welcome!")) GenEnd in
  threads (serve_GET (env_streaming response_) id None (ErrorObj "aborted")
                     (mkGetRequest (Some "hi") (Some "user-42")) ∅) !! "user-42"
  = Some 1700000000000%Z.
Proof.
  cbv zeta.
  pose proof (serve_GET_registry
                (env_streaming (GenYield (AIMessageChunk (ContentString "Welcome!")) GenEnd))
                id None (ErrorObj "aborted")
                (mkGetRequest (Some "hi") (Some "user-42")) ∅) as (_ & H & _).
  destruct (H "hi" "user-42" eq_refl) as (_ & _ & Hnew).
  exact (Hnew eq_refl).
Defined.

End GatewayMore.

(** ** Chat view: what the stream does to the bubbles *)

Section ClientMore.
Import JsString Client.

Example cleanMessage_examples :
  cleanMessage "YC Advisor here: Welcome!" = "Welcome!"
  /\ cleanMessage "your yc advisor:  Hi " = "Hi"
  /\ cleanMessage "  What problem are you solving?" = "What problem are you solving?"
  /\ cleanMessage "YCAdvisorhere" = "".
Proof. repeat split. Qed.

Lemma replace_last_snoc (base : list Message) (x m : Message) :
  replace_last (base ++ [x]) m = base ++ [m].
Proof. unfold replace_last. now rewrite removelast_last. Qed.

(** One bubble under the stream: the invariant of the message listener. *)
Lemma deliver_invariant (ds : list string) :
  Forall (fun d => d <> "[DONE]") ds ->
  forall base shown acc loading,
    (trim (cleanMessage acc) <> EmptyString -> shown = cleanMessage acc) ->
    exists shown',
      fold_left deliver ds (mkChat (base ++ [mkMessage assistant shown]) acc loading true)
      = mkChat (base ++ [mkMessage assistant shown']) (acc +:+ concat_texts ds) loading true
      /\ (trim (cleanMessage (acc +:+ concat_texts ds)) <> EmptyString ->
          shown' = cleanMessage (acc +:+ concat_texts ds)).
Proof.
  induction 1 as [|d r Hd Hr IH]; intros base shown acc loading Hshown.
  - exists shown. cbn [fold_left concat_texts]. now rewrite sapp_nil_r.
  - cbn [fold_left concat_texts]. unfold deliver at 2. cbn [source_open].
    unfold on_message.
    assert (Hnot : String.eqb d "[DONE]" = false) by now apply String.eqb_neq.
    rewrite Hnot. cbn [messages assistantMessage isLoading source_open].
    destruct (truthy d) eqn:Htd.
    + rewrite <- sapp_assoc. unfold processIncomingMessage.
      destruct (truthy (trim (cleanMessage (acc +:+ d)))) eqn:Hshow.
      * rewrite replace_last_snoc. apply IH. reflexivity.
      * apply IH. intros Hne. destruct (trim (cleanMessage (acc +:+ d))); [congruence|discriminate].
    + destruct d; [|discriminate]. rewrite sapp_nil_l. now apply IH.
Qed.

(** X20. While an answer streams in, the chat view keeps its bubbles and rewrites
    only the last one: after any number of data events the list is the one
    before the question, the question, and one assistant bubble; the text
    gathered is the concatenation of everything received; and as soon as that
    text, cleaned of the advisor's self-introduction, is not blank, the bubble
    shows exactly the cleaned text. Loading stays on and the source open. *)
Theorem stream_rewrites_last_bubble (uid question : string) (st0 : Chat)
    (ds : list string) :
  uid <> EmptyString ->
  Forall (fun d => d <> "[DONE]") ds ->
  let st := fold_left deliver ds (handleSubmit (Some uid) question st0) in
  assistantMessage st = concat_texts ds
  /\ isLoading st = true /\ source_open st = true
  /\ exists shown,
       messages st
       = messages st0 ++ [mkMessage user question; mkMessage assistant shown]
       /\ (trim (cleanMessage (concat_texts ds)) <> EmptyString ->
           shown = cleanMessage (concat_texts ds)).
Proof.
  intros Huid Hds. cbv zeta. unfold handleSubmit.
  rewrite (truthy_nonempty uid Huid). cbn [negb].
  destruct (deliver_invariant ds Hds (messages st0 ++ [mkMessage user question])
              EmptyString EmptyString true) as (shown & Hrun & Hshown).
  { intros H. exfalso. now apply H. }
  replace (messages st0 ++ [mkMessage user question; mkMessage assistant EmptyString])
    with ((messages st0 ++ [mkMessage user question]) ++ [mkMessage assistant EmptyString])
    by now rewrite <- app_assoc.
  rewrite Hrun. rewrite sapp_nil_l in Hshown. cbn [assistantMessage isLoading source_open messages].
  repeat split. exists shown. split; [now rewrite <- app_assoc | exact Hshown].
Qed.

(** The answer arrives in three pieces, the first being the introduction. *)
Lemma stream_rewrites_last_bubble_witness :
  let st := fold_left deliver ["YC Advisor: "; "What problem "; "are you solving?"]
              (handleSubmit (Some "user-42") "hi" (mkChat [] EmptyString false false)) in
  messages st = [mkMessage user "hi"; mkMessage assistant "What problem are you solving?"]
  /\ assistantMessage st = "YC Advisor: What problem are you solving?".
Proof.
  cbv zeta.
  destruct (stream_rewrites_last_bubble "user-42" "hi" (mkChat [] EmptyString false false)
              ["YC Advisor: "; "What problem "; "are you solving?"]
              ltac:(discriminate) ltac:(repeat constructor; discriminate))
    as (Hacc & _ & _ & shown & Hmsgs & Hshown).
  split; [|exact Hacc].
  rewrite Hmsgs, (Hshown ltac:(discriminate)). reflexivity.
Defined.

(** X21. How a stream ends in the chat view. The sentinel switches loading off and
    closes the source without touching the bubbles, and nothing delivered
    afterwards has any effect. An error event replaces the last bubble by the
    failure text, keeps all the others, and switches loading off as well. *)
Theorem stream_end_in_view (st : Chat) (later : list string)
    (base : list Message) (lastMessage : Message) :
  source_open st = true ->
  messages st = base ++ [lastMessage] ->
  let done := deliver st "[DONE]" in
  messages done = messages st /\ isLoading done = false
  /\ fold_left deliver later done = done
  /\ messages (on_error st) = base ++ [mkMessage assistant FAILED]
  /\ isLoading (on_error st) = false
  /\ fold_left deliver later (on_error st) = on_error st.
Proof.
  intros Hopen Hmsgs. cbv zeta.
  assert (Hclosed : forall c, source_open c = false -> fold_left deliver later c = c).
  { intros c Hc. induction later as [|d r IH]; [reflexivity|].
    cbn [fold_left]. unfold deliver at 2. rewrite Hc. exact IH. }
  unfold deliver. rewrite Hopen. unfold on_message, on_error. cbn [String.eqb].
  change (String.eqb "[DONE]" "[DONE]") with true. cbv iota.
  cbn [messages isLoading]. rewrite Hmsgs, replace_last_snoc.
  repeat split; apply Hclosed; reflexivity.
Qed.

(** The model gives up after the first words. *)
Lemma stream_end_in_view_witness :
  let st := mkChat [mkMessage user "hi"; mkMessage assistant "What pro"]
                   "What pro" true true in
  messages (on_error st) = [mkMessage user "hi"; mkMessage assistant FAILED]
  /\ fold_left deliver ["blem"] (deliver st "[DONE]") = deliver st "[DONE]".
Proof.
  cbv zeta.
  destruct (stream_end_in_view
              (mkChat [mkMessage user "hi"; mkMessage assistant "What pro"]
                      "What pro" true true)
              ["blem"] [mkMessage user "hi"] (mkMessage assistant "What pro")
              eq_refl eq_refl)
    as (_ & _ & Hdone & Herr & _).
  split; [exact Herr | exact Hdone].
Defined.

End ClientMore.
